(** * An LRU cache over a dictionary and a doubly linked list

    Shallow embedding of [Ex2_LRU_Cache.py]: the node objects live in an
    object store addressed by identity, [self.dict] is a finite map from
    keys to node identities, and every method is a computation in a small
    monad that threads the cache, may raise a Python exception, and logs
    the primitive Index and node operations it performs. *)

From Stdlib Require Import ZArith Lia.
From stdpp Require Import gmap list sorting.

Local Open Scope Z_scope.

(** ** Objects *)

(** The identity of a [ListNode] object: its position in the object store. *)
Abbreviation ref := nat (only parsing).

(** [class ListNode]: [prev] and [next] hold a node or [None]. *)
Record ListNode := mkNode {
  key : Z;
  val : Z;
  prev : option ref;
  next : option ref
}.

(** [class LRUCache]: the four attributes set by [__init__], together with
    the store of the node objects allocated so far.  Before [__init__]
    has run, [head] and [tail] are unset. *)
Record LRUCache := mkLRU {
  store : list ListNode;
  dict : gmap Z ref;
  capacity : Z;
  head : option ref;
  tail : option ref
}.

(** ** Exceptions, events and the monad *)

(** [AttributeError]: an attribute of [None] is read or written.
    [KeyError]: a key missing from the dictionary is fetched or deleted.
    [Dangling]: a reference to no object; Python cannot produce one. *)
Inductive exn := AttributeError | KeyError | Dangling.

(** The primitive operations a method performs, in the order performed. *)
Inductive Event :=
| IndexContains   (* key in self.dict *)
| IndexGet        (* self.dict[key] *)
| IndexSet        (* self.dict[key] = node *)
| IndexDel        (* del self.dict[key] *)
| IndexLen        (* len(self.dict) *)
| FieldRead       (* node.f *)
| FieldWrite      (* node.f = x *)
| NewNode.        (* ListNode(key, val) *)

Global Instance Event_eq_dec : EqDecision Event.
Proof. solve_decision. Defined.

Inductive Res (A : Type) :=
| Ok (a : A)
| Raise (e : exn).
Arguments Ok {A} a.
Arguments Raise {A} e.

Definition M (A : Type) : Type := LRUCache → Res (A * LRUCache * list Event).

Global Instance M_ret : MRet M := λ A a st, Ok (a, st, []).

Global Instance M_bind : MBind M := λ A B f m st,
  match m st with
  | Raise e => Raise e
  | Ok (a, st1, t1) =>
      match f a st1 with
      | Raise e => Raise e
      | Ok (b, st2, t2) => Ok (b, st2, t1 ++ t2)
      end
  end.

(** ** Primitive operations *)

Definition with_store (st : LRUCache) (h : list ListNode) : LRUCache :=
  mkLRU h (dict st) (capacity st) (head st) (tail st).

Definition with_dict (st : LRUCache) (d : gmap Z ref) : LRUCache :=
  mkLRU (store st) d (capacity st) (head st) (tail st).

Definition set_next (r : ref) (v : option ref) (h : list ListNode) : list ListNode :=
  alter (λ n, mkNode (key n) (val n) (prev n) v) r h.

Definition set_prev (r : ref) (v : option ref) (h : list ListNode) : list ListNode :=
  alter (λ n, mkNode (key n) (val n) v (next n)) r h.

(** [o.f], for a field [f] of a node. *)
Definition getattr {A} (f : ListNode → A) (o : option ref) : M A := λ st,
  match o with
  | None => Raise AttributeError
  | Some r =>
      match store st !! r with
      | None => Raise Dangling
      | Some n => Ok (f n, st, [FieldRead])
      end
  end.

(** [o.next = v] *)
Definition setattr_next (o v : option ref) : M unit := λ st,
  match o with
  | None => Raise AttributeError
  | Some r =>
      match store st !! r with
      | None => Raise Dangling
      | Some _ => Ok (tt, with_store st (set_next r v (store st)), [FieldWrite])
      end
  end.

(** [o.prev = v] *)
Definition setattr_prev (o v : option ref) : M unit := λ st,
  match o with
  | None => Raise AttributeError
  | Some r =>
      match store st !! r with
      | None => Raise Dangling
      | Some _ => Ok (tt, with_store st (set_prev r v (store st)), [FieldWrite])
      end
  end.

(** [ListNode(key, val)]: a new object, distinct from every existing one. *)
Definition new_ListNode (k v : Z) : M ref := λ st,
  Ok (length (store st),
      with_store st (store st ++ [mkNode k v None None]),
      [NewNode]).

Definition self_head : M (option ref) := λ st, Ok (head st, st, []).
Definition self_tail : M (option ref) := λ st, Ok (tail st, st, []).
Definition self_capacity : M Z := λ st, Ok (capacity st, st, []).

Definition set_self_dict (d : gmap Z ref) : M unit := λ st,
  Ok (tt, with_dict st d, []).
Definition set_self_capacity (c : Z) : M unit := λ st,
  Ok (tt, mkLRU (store st) (dict st) c (head st) (tail st), []).
Definition set_self_head (o : option ref) : M unit := λ st,
  Ok (tt, mkLRU (store st) (dict st) (capacity st) o (tail st), []).
Definition set_self_tail (o : option ref) : M unit := λ st,
  Ok (tt, mkLRU (store st) (dict st) (capacity st) (head st) o, []).

(** [key in self.dict] *)
Definition dict_contains (k : Z) : M bool := λ st,
  Ok (bool_decide (is_Some (dict st !! k)), st, [IndexContains]).

(** [self.dict[key]] *)
Definition dict_getitem (k : Z) : M (option ref) := λ st,
  match dict st !! k with
  | None => Raise KeyError
  | Some r => Ok (Some r, st, [IndexGet])
  end.

(** [self.dict[key] = node], for a node object. *)
Definition dict_setitem (k : Z) (r : ref) : M unit := λ st,
  Ok (tt, with_dict st (<[k := r]> (dict st)), [IndexSet]).

(** [del self.dict[key]] *)
Definition dict_delitem (k : Z) : M unit := λ st,
  match dict st !! k with
  | None => Raise KeyError
  | Some _ => Ok (tt, with_dict st (delete k (dict st)), [IndexDel])
  end.

(** [len(self.dict)] *)
Definition dict_len : M Z := λ st,
  Ok (Z.of_nat (size (dict st)), st, [IndexLen]).

(** ** The methods of [LRUCache] *)

(** [_add]: link [node] right after the dummy head. *)
Definition _add (node : option ref) : M unit :=
  h ← self_head;
  x ← getattr next h;
  setattr_next node x ;;            (* node.next = self.head.next *)
  h ← self_head;
  setattr_prev node h ;;            (* node.prev = self.head *)
  h ← self_head;
  x ← getattr next h;
  setattr_prev x node ;;            (* self.head.next.prev = node *)
  h ← self_head;
  setattr_next h node.              (* self.head.next = node *)

(** [_remove]: unlink [node] from its two neighbours. *)
Definition _remove (node : option ref) : M unit :=
  x ← getattr next node;
  p ← getattr prev node;
  setattr_next p x ;;               (* node.prev.next = node.next *)
  p ← getattr prev node;
  x ← getattr next node;
  setattr_prev x p.                 (* node.next.prev = node.prev *)

(** The object before [__init__] has set any attribute. *)
Definition blank : LRUCache := mkLRU [] ∅ 0 None None.

Definition __init__ (cap : Z) : M unit :=
  set_self_dict ∅ ;;                (* self.dict = {} *)
  set_self_capacity cap ;;          (* self.capacity = capacity *)
  h ← new_ListNode (-1) (-1);
  set_self_head (Some h) ;;         (* self.head = ListNode(-1, -1) *)
  t ← new_ListNode (-1) (-1);
  set_self_tail (Some t) ;;         (* self.tail = ListNode(-1, -1) *)
  t ← self_tail;
  h ← self_head;
  setattr_next h t ;;               (* self.head.next = self.tail *)
  h ← self_head;
  t ← self_tail;
  setattr_prev t h.                 (* self.tail.prev = self.head *)

(** [LRUCache(capacity)] *)
Definition new (cap : Z) : Res (LRUCache * list Event) :=
  match __init__ cap blank with
  | Ok (_, st, t) => Ok (st, t)
  | Raise e => Raise e
  end.

(** [get]: [-1] for a key not in the dictionary; otherwise the node of
    the key is unlinked, linked again after the dummy head, and its value
    returned. *)
Definition get (k : Z) : M Z :=
  b ← dict_contains k;
  if negb b then (mret (-1) : M Z)  (* if key not in self.dict: return -1 *)
  else
    node ← dict_getitem k;          (* node = self.dict[key] *)
    _remove node ;;
    _add node ;;
    getattr val node.               (* return node.val *)

(** [put]: the node of a key already present is unlinked; a new node is
    made for the key in every case, recorded in the dictionary and linked
    after the dummy head; then, if the dictionary holds more keys than
    the capacity, the node before the dummy tail is unlinked and its key
    deleted. *)
Definition put (k v : Z) : M unit :=
  b ← dict_contains k;              (* if key in self.dict: *)
  (if b : bool
   then old ← dict_getitem k; _remove old   (* self._remove(self.dict[key]) *)
   else mret tt) ;;
  node ← new_ListNode k v;          (* node = ListNode(key, value) *)
  dict_setitem k node ;;            (* self.dict[key] = node *)
  _add (Some node) ;;               (* self._add(node) *)
  n ← dict_len;
  c ← self_capacity;
  if bool_decide (c < n) then       (* if len(self.dict) > self.capacity: *)
    t ← self_tail;
    lru_node ← getattr prev t;      (* lru_node = self.tail.prev *)
    _remove lru_node ;;             (* self._remove(lru_node) *)
    lk ← getattr key lru_node;
    dict_delitem lk                 (* del self.dict[lru_node.key] *)
  else (mret tt : M unit).

(** ** Observations *)

Definition nxt (h : list ListNode) (r : ref) : option ref := h !! r ≫= next.
Definition prv (h : list ListNode) (r : ref) : option ref := h !! r ≫= prev.
Definition kvof (h : list ListNode) (r : ref) : option (Z * Z) :=
  (λ n, (key n, val n)) <$> h !! r.

(** Follow [next] from [cur] until [stop], at most [fuel] nodes. *)
Fixpoint walk (fuel : nat) (h : list ListNode) (cur stop : ref) : list ref :=
  match fuel with
  | O => []
  | S f =>
      if decide (cur = stop) then []
      else cur :: match nxt h cur with
                  | Some n => walk f h n stop
                  | None => []
                  end
  end.

(** The nodes of the Recency List, from the one after the dummy head to
    the one before the dummy tail. *)
Definition nodes (st : LRUCache) : list ref :=
  match head st, tail st with
  | Some hd, Some tl =>
      match nxt (store st) hd with
      | Some n => walk (length (store st)) (store st) n tl
      | None => []
      end
  | _, _ => []
  end.

(** The Recency List as (key, value) pairs, most recently used first. *)
Definition items (st : LRUCache) : list (Z * Z) :=
  omap (kvof (store st)) (nodes st).

(** The value the Index holds for a key. *)
Definition stored (st : LRUCache) (k : Z) : option Z :=
  r ← dict st !! k; snd <$> kvof (store st) r.

(** ** Runs *)

Inductive Op := Get (k : Z) | Put (k v : Z).

Definition touched (o : Op) : Z :=
  match o with Get k => k | Put k _ => k end.

Definition step (o : Op) (st : LRUCache) : Res LRUCache :=
  match o with
  | Get k => match get k st with Ok (_, st', _) => Ok st' | Raise e => Raise e end
  | Put k v => match put k v st with Ok (_, st', _) => Ok st' | Raise e => Raise e end
  end.

Definition and_then (r : Res LRUCache) (o : Op) : Res LRUCache :=
  match r with Ok st => step o st | Raise e => Raise e end.

(** Construct a cache and apply the operations from left to right. *)
Definition exec (cap : Z) (ops : list Op) : Res LRUCache :=
  foldl and_then
        (match new cap with Ok (st, _) => Ok st | Raise e => Raise e end)
        ops.

Inductive reachable : LRUCache → Prop :=
| reach_new cap st t :
    new cap = Ok (st, t) → reachable st
| reach_get st k v st' t :
    reachable st → get k st = Ok (v, st', t) → reachable st'
| reach_put st k v st' t :
    reachable st → put k v st = Ok (tt, st', t) → reachable st'.

(** The scenario of the specification. *)
Definition scenario : list Op :=
  [Put 1 1; Put 2 2; Get 1; Put 3 3; Get 2; Put 4 4; Get 1; Get 3; Get 4].

(** * Specification vocabulary *)

(** ** Events of the methods *)

Definition remove_trace : list Event :=
  [FieldRead; FieldRead; FieldWrite; FieldRead; FieldRead; FieldWrite].

Definition add_trace : list Event :=
  [FieldRead; FieldWrite; FieldWrite; FieldRead; FieldWrite; FieldWrite].

Definition new_trace : list Event := [NewNode; NewNode; FieldWrite; FieldWrite].

Definition get_miss_trace : list Event := [IndexContains].

Definition get_hit_trace : list Event :=
  [IndexContains; IndexGet] ++ remove_trace ++ add_trace ++ [FieldRead].

Definition evict_trace : list Event :=
  [FieldRead] ++ remove_trace ++ [FieldRead; IndexDel].

(** The events of [put], by whether the key was present and whether the
    capacity was exceeded. *)
Definition put_trace (present evicts : bool) : list Event :=
  [IndexContains] ++ (if present then IndexGet :: remove_trace else [])
  ++ [NewNode; IndexSet] ++ add_trace ++ [IndexLen]
  ++ (if evicts then evict_trace else []).

(** The last block of [put], under [if len(self.dict) > self.capacity],
    named to state what it does. *)
Definition evict : M unit :=
  t ← self_tail;
  lru_node ← getattr prev t;
  _remove lru_node ;;
  lk ← getattr key lru_node;
  dict_delitem lk.

(** ** Chains of nodes *)

(** [fwd h a rs z]: following [next] from [a] visits [rs] and then [z]. *)
Fixpoint fwd (h : list ListNode) (a : ref) (rs : list ref) (z : ref) : Prop :=
  match rs with
  | [] => nxt h a = Some z
  | r :: rs' => nxt h a = Some r ∧ fwd h r rs' z
  end.

(** [bwd h a rs z]: every node of [rs ++ [z]] points back, with [prev], to
    the node before it in [a :: rs]. *)
Fixpoint bwd (h : list ListNode) (a : ref) (rs : list ref) (z : ref) : Prop :=
  match rs with
  | [] => prv h z = Some a
  | r :: rs' => prv h r = Some a ∧ bwd h r rs' z
  end.

(** ** The Recency List *)

(** [Chain st hd tl rs]: the list runs from the dummy head [hd] through the
    distinct nodes [rs] to the dummy tail [tl], linked both ways. *)
Record Chain (st : LRUCache) (hd tl : ref) (rs : list ref) : Prop := {
  chain_head : head st = Some hd;
  chain_tail : tail st = Some tl;
  chain_nodup : NoDup (hd :: rs ++ [tl]);
  chain_fwd : fwd (store st) hd rs tl;
  chain_bwd : bwd (store st) hd rs tl
}.

(** What the list primitives leave alone: the Index, the capacity, the
    sentinels, the set of objects and the key and value of every node. *)
Record same_data (st st' : LRUCache) : Prop := {
  same_dict : dict st' = dict st;
  same_capacity : capacity st' = capacity st;
  same_head : head st' = head st;
  same_tail : tail st' = tail st;
  same_length : length (store st') = length (store st);
  same_kvof : ∀ x, kvof (store st') x = kvof (store st) x
}.

(** ** The invariant of the cache *)

(** [Inv st hd tl rs]: the Recency List holds the nodes [rs], and the Index
    maps exactly the keys of these nodes, each to its node. *)
Record Inv (st : LRUCache) (hd tl : ref) (rs : list ref) : Prop := {
  inv_chain : Chain st hd tl rs;
  inv_index : ∀ k r,
    dict st !! k = Some r ↔ r ∈ rs ∧ fst <$> kvof (store st) r = Some k;
  inv_size : size (dict st) = length rs
}.

(** ** The abstract cache

    The Recency List as the specification describes it: a list of entries,
    most recently used first.  [touch] moves (or inserts) an entry at the
    head; [trim] drops the last entry when the capacity is exceeded. *)

Definition touch (k v : Z) (l : list (Z * Z)) : list (Z * Z) :=
  (k, v) :: filter (λ e, e.1 ≠ k) l.

Definition trim (cap : Z) (l : list (Z * Z)) : list (Z * Z) :=
  if bool_decide (cap < Z.of_nat (length l)) then removelast l else l.

(** ** Touch order

    The time of the most recent touch of each key, operations being
    numbered from 0 in the order they are applied. *)

Definition last_touch_acc (mt : gmap Z nat * nat) (o : Op) : gmap Z nat * nat :=
  (<[touched o := mt.2]> mt.1, S mt.2).

Definition last_touch (ops : list Op) : gmap Z nat :=
  (foldl last_touch_acc (∅, 0%nat) ops).1.

(** [a] was touched, [b] was touched, and the last touch of [a] came
    after the last touch of [b]. *)
Definition more_recent (ops : list Op) (a b : Z) : Prop :=
  ∃ ta tb, last_touch ops !! a = Some ta
           ∧ last_touch ops !! b = Some tb
           ∧ (tb < ta)%nat.

(** The keys [l] are in reverse chronological order of their last touch. *)
Definition recency_ordered (ops : list Op) (l : list Z) : Prop :=
  StronglySorted (more_recent ops) l
  ∧ Forall (λ k, is_Some (last_touch ops !! k)) l.

(** ** Observing results and counting events *)

Definition returned {A} (r : Res (A * LRUCache * list Event)) : option A :=
  match r with
  | Ok (a, _, _) => Some a
  | Raise _ => None
  end.

Definition count_event (e : Event) (t : list Event) : nat :=
  length (filter (λ x, x = e) t).

(** Membership tests and fetches both look a key up in the Index. *)
Definition index_lookups (t : list Event) : nat :=
  (count_event IndexContains t + count_event IndexGet t)%nat.

Definition field_accesses (t : list Event) : nat :=
  (count_event FieldRead t + count_event FieldWrite t)%nat.

(** The state a run ends in. *)
Definition state_after (cap : Z) (ops : list Op) : LRUCache :=
  match exec cap ops with
  | Ok st => st
  | Raise _ => blank
  end.

(** ** Walking the list backwards *)

(** Follow [prev] from [cur] until [stop], at most [fuel] nodes. *)
Fixpoint walk_back (fuel : nat) (h : list ListNode) (cur stop : ref) : list ref :=
  match fuel with
  | O => []
  | S f =>
      if decide (cur = stop) then []
      else cur :: match prv h cur with
                  | Some p => walk_back f h p stop
                  | None => []
                  end
  end.

(** The nodes of the Recency List, from the one before the dummy tail to
    the one after the dummy head. *)
Definition nodes_back (st : LRUCache) : list ref :=
  match head st, tail st with
  | Some hd, Some tl =>
      match prv (store st) tl with
      | Some p => walk_back (length (store st)) (store st) p hd
      | None => []
      end
  | _, _ => []
  end.

(** ** Allocation *)

(** From [st] to [st'], [n] node objects were allocated and no existing
    node had its key or value changed. *)
Definition grows (n : nat) (st st' : LRUCache) : Prop :=
  length (store st') = (length (store st) + n)%nat
  ∧ ∀ x, is_Some (store st !! x) → kvof (store st') x = kvof (store st) x.

(** Whenever [m] returns, it has done so. *)
Definition allocates {A} (n : nat) (m : M A) : Prop :=
  ∀ st a st' t, m st = Ok (a, st', t) → grows n st st'.

(** ** A session, and the cache as a plain list *)

(** A sequence of calls, as in the demonstration under [__main__]: the
    results of the [get] calls are collected in order. *)
Fixpoint run (ops : list Op) (st : LRUCache) : Res (list Z * LRUCache) :=
  match ops with
  | [] => Ok ([], st)
  | Get k :: ops' =>
      match get k st with
      | Raise e => Raise e
      | Ok (x, st1, _) =>
          match run ops' st1 with
          | Raise e => Raise e
          | Ok (xs, st2) => Ok (x :: xs, st2)
          end
      end
  | Put k v :: ops' =>
      match put k v st with
      | Raise e => Raise e
      | Ok (_, st1, _) => run ops' st1
      end
  end.

(** [if __name__ == "__main__"]: a cache of capacity 2, the calls of
    [scenario], and what is printed. *)
Definition main : Res (list Z) :=
  match new 2 with
  | Raise e => Raise e
  | Ok (lru, _) =>
      match run scenario lru with
      | Raise e => Raise e
      | Ok (printed, _) => Ok printed
      end
  end.

(** The value of the first entry with key [k]. *)
Fixpoint assoc (k : Z) (l : list (Z * Z)) : option Z :=
  match l with
  | [] => None
  | (k', v) :: l' => if decide (k' = k) then Some v else assoc k l'
  end.

(** The same session on a list of entries, most recently used first:
    the results of the [get] calls and the final list. *)
Fixpoint model_run (cap : Z) (ops : list Op) (l : list (Z * Z))
    : list Z * list (Z * Z) :=
  match ops with
  | [] => ([], l)
  | Get k :: ops' =>
      match assoc k l with
      | Some v =>
          let r := model_run cap ops' (touch k v l) in (v :: r.1, r.2)
      | None =>
          let r := model_run cap ops' l in (-1 :: r.1, r.2)
      end
  | Put k v :: ops' => model_run cap ops' (trim cap (touch k v l))
  end.

(** * The nested list iterator

    Shallow embedding of [Ex1_Flatten_Nested_List_Iterator.py].  The
    iterator is generic in the [NestedInteger] interface, as the source
    is; [Nested] is the implementation of the interface by trees, and
    [flatten_list] the integers of a nested list in order. *)

Module NestedIterator.

(** [class NestedInteger]: the interface, three methods without a body. *)
Class NestedInteger (NI : Type) := {
  isInteger : NI → bool;
  getInteger : NI → Z;
  getList : NI → list NI
}.

(** What [list.pop()] gives: the last element, or [IndexError] on []. *)
Inductive popped (A : Type) :=
| Returned (a : A)
| IndexError.
Arguments Returned {A} a.
Arguments IndexError {A}.

Section iterator.
Context {NI : Type} `{!NestedInteger NI}.

(** [self.stack = nestedList[::-1]]: the iterator is its stack, a Python
    list whose top is its last element. *)
Definition __init__ (nestedList : list NI) : list NI := reverse nestedList.

(** [return self.stack.pop().getInteger()] *)
Definition next (stack : list NI) : popped (Z * list NI) :=
  match last stack with
  | None => IndexError
  | Some top => Returned (getInteger top, removelast stack)
  end.

(** [hasNext]: the [while] loop, run for at most [fuel] iterations;
    [None] when they do not suffice. *)
Fixpoint hasNext (fuel : nat) (stack : list NI) : option (bool * list NI) :=
  match fuel with
  | O => None
  | S f =>
      match last stack with
      | None => Some (false, stack)
      | Some top =>
          if isInteger top then Some (true, stack)
          else hasNext f (removelast stack ++ reverse (getList top))
      end
  end.

(** The loop of a client: [while it.hasNext(): out.append(it.next())]. *)
Fixpoint drain (rounds fuel : nat) (stack : list NI) : option (list Z) :=
  match rounds with
  | O => None
  | S n =>
      match hasNext fuel stack with
      | None => None
      | Some (false, _) => Some []
      | Some (true, stack1) =>
          match next stack1 with
          | IndexError => None
          | Returned (x, stack2) => cons x <$> drain n fuel stack2
          end
      end
  end.
End iterator.

(** A nested integer: an integer, or a list of nested integers. *)
#[local] Unset Elimination Schemes.
Inductive Nested :=
| Int (n : Z)
| Lst (l : list Nested).

#[local] Set Elimination Schemes.

Global Instance Nested_NestedInteger : NestedInteger Nested := {
  isInteger x := match x with Int _ => true | Lst _ => false end;
  getInteger x := match x with Int n => n | Lst _ => 0 end;
  getList x := match x with Int _ => [] | Lst l => l end
}.

Fixpoint flatten (x : Nested) : list Z :=
  match x with
  | Int n => [n]
  | Lst l => (fix go (l : list Nested) : list Z :=
                match l with
                | [] => []
                | y :: l' => flatten y ++ go l'
                end) l
  end.

Definition flatten_list (l : list Nested) : list Z := flat_map flatten l.

Fixpoint weight (x : Nested) : nat :=
  match x with
  | Int _ => 1
  | Lst l => S ((fix go (l : list Nested) : nat :=
                   match l with
                   | [] => O
                   | y :: l' => (weight y + go l')%nat
                   end) l)
  end.

Definition weight_list (l : list Nested) : nat :=
  foldr (λ x n, (weight x + n)%nat) O l.

(** The integers still to come: those of the elements of the stack, from
    its top, the last element, down. *)
Definition pending (stack : list Nested) : list Z :=
  flatten_list (reverse stack).

End NestedIterator.

(** * Proofs *)

(** ** Reading the store after a field write or an allocation *)

Section store.
Implicit Types (h : list ListNode) (r x : ref) (v : option ref).

Lemma nxt_set_next_eq h r v : is_Some (h !! r) → nxt (set_next r v h) r = v.
Proof.
  intros [n Hn]. unfold nxt, set_next.
  by rewrite list_lookup_alter_eq, Hn.
Qed.

Lemma nxt_set_next_ne h r v x : x ≠ r → nxt (set_next r v h) x = nxt h x.
Proof.
  intros Hne. unfold nxt, set_next. by rewrite list_lookup_alter_ne.
Qed.

Lemma prv_set_prev_eq h r v : is_Some (h !! r) → prv (set_prev r v h) r = v.
Proof.
  intros [n Hn]. unfold prv, set_prev.
  by rewrite list_lookup_alter_eq, Hn.
Qed.

Lemma prv_set_prev_ne h r v x : x ≠ r → prv (set_prev r v h) x = prv h x.
Proof.
  intros Hne. unfold prv, set_prev. by rewrite list_lookup_alter_ne.
Qed.

Lemma prv_set_next h r v x : prv (set_next r v h) x = prv h x.
Proof.
  unfold prv, set_next. rewrite list_lookup_alter.
  case_decide; subst; [|done]. by destruct (h !! x).
Qed.

Lemma nxt_set_prev h r v x : nxt (set_prev r v h) x = nxt h x.
Proof.
  unfold nxt, set_prev. rewrite list_lookup_alter.
  case_decide; subst; [|done]. by destruct (h !! x).
Qed.

Lemma kvof_set_next h r v x : kvof (set_next r v h) x = kvof h x.
Proof.
  unfold kvof, set_next. rewrite list_lookup_alter.
  case_decide; subst; [|done]. by destruct (h !! x).
Qed.

Lemma kvof_set_prev h r v x : kvof (set_prev r v h) x = kvof h x.
Proof.
  unfold kvof, set_prev. rewrite list_lookup_alter.
  case_decide; subst; [|done]. by destruct (h !! x).
Qed.

Lemma length_set_next h r v : length (set_next r v h) = length h.
Proof. apply length_alter. Qed.

Lemma length_set_prev h r v : length (set_prev r v h) = length h.
Proof. apply length_alter. Qed.

Lemma lookup_set_next_is_Some h r v x :
  is_Some (set_next r v h !! x) ↔ is_Some (h !! x).
Proof. by rewrite !lookup_lt_is_Some, length_set_next. Qed.

Lemma lookup_set_prev_is_Some h r v x :
  is_Some (set_prev r v h !! x) ↔ is_Some (h !! x).
Proof. by rewrite !lookup_lt_is_Some, length_set_prev. Qed.

Lemma nxt_is_Some h x y : nxt h x = Some y → is_Some (h !! x).
Proof. unfold nxt. destruct (h !! x); [eauto|done]. Qed.

Lemma prv_is_Some h x y : prv h x = Some y → is_Some (h !! x).
Proof. unfold prv. destruct (h !! x); [eauto|done]. Qed.

Lemma kvof_is_Some h x : is_Some (kvof h x) ↔ is_Some (h !! x).
Proof. unfold kvof. by rewrite fmap_is_Some. Qed.

Lemma nxt_alloc h n x : is_Some (h !! x) → nxt (h ++ [n]) x = nxt h x.
Proof. intros [m Hm]. unfold nxt. by rewrite (lookup_app_l_Some _ _ _ _ Hm), Hm. Qed.

Lemma prv_alloc h n x : is_Some (h !! x) → prv (h ++ [n]) x = prv h x.
Proof. intros [m Hm]. unfold prv. by rewrite (lookup_app_l_Some _ _ _ _ Hm), Hm. Qed.

Lemma kvof_alloc h n x : is_Some (h !! x) → kvof (h ++ [n]) x = kvof h x.
Proof. intros [m Hm]. unfold kvof. by rewrite (lookup_app_l_Some _ _ _ _ Hm), Hm. Qed.

Lemma lookup_alloc_new h n : (h ++ [n]) !! length h = Some n.
Proof. by rewrite list_lookup_middle. Qed.

Lemma kvof_alloc_new h n : kvof (h ++ [n]) (length h) = Some (key n, val n).
Proof. unfold kvof. by rewrite lookup_alloc_new. Qed.
End store.

(** ** Lists without duplicates *)

Lemma NoDup_drop_middle {A} (l1 : list A) x l2 :
  NoDup (l1 ++ x :: l2) → NoDup (l1 ++ l2).
Proof.
  rewrite !NoDup_app, NoDup_cons. intros (H1 & Hd & _ & H2).
  split_and!; [done| |done]. intros y Hy Hy'. apply (Hd y Hy). by right.
Qed.

(** ** Lemmas on chains *)

Section chains.
Implicit Types (h : list ListNode) (a z r x : ref) (rs : list ref).

Lemma fwd_app h a l1 r l2 z :
  fwd h a (l1 ++ r :: l2) z ↔ fwd h a l1 r ∧ fwd h r l2 z.
Proof.
  revert a. induction l1 as [|y l1 IH]; intros a; simpl; [done|].
  rewrite IH. tauto.
Qed.

Lemma bwd_app h a l1 r l2 z :
  bwd h a (l1 ++ r :: l2) z ↔ bwd h a l1 r ∧ bwd h r l2 z.
Proof.
  revert a. induction l1 as [|y l1 IH]; intros a; simpl; [done|].
  rewrite IH. tauto.
Qed.

(** A chain only depends on the [next] fields of its nodes but the last. *)
Lemma fwd_frame h h' a rs z :
  (∀ x, x ∈ a :: rs → nxt h' x = nxt h x) →
  fwd h a rs z → fwd h' a rs z.
Proof.
  revert a. induction rs as [|r rs IH]; intros a Hx; simpl.
  - intros <-. apply Hx. by left.
  - intros [Ha Hr]. split.
    + rewrite <- Ha. apply Hx. by left.
    + apply IH; [|done]. intros x Hin. apply Hx. by right.
Qed.

(** ... and on the [prev] fields of its nodes but the first. *)
Lemma bwd_frame h h' a rs z :
  (∀ x, x ∈ rs ++ [z] → prv h' x = prv h x) →
  bwd h a rs z → bwd h' a rs z.
Proof.
  revert a. induction rs as [|r rs IH]; intros a Hx; simpl.
  - intros <-. apply Hx. by left.
  - intros [Ha Hr]. split.
    + rewrite <- Ha. apply Hx. by left.
    + apply IH; [|done]. intros x Hin. apply Hx. by right.
Qed.

Lemma fwd_valid h a rs z x : fwd h a rs z → x ∈ a :: rs → is_Some (h !! x).
Proof.
  revert a. induction rs as [|r rs IH]; intros a; simpl.
  - intros Ha ->%list_elem_of_singleton. by eapply nxt_is_Some.
  - intros [Ha Hr] [->|Hin]%elem_of_cons; [by eapply nxt_is_Some|eauto].
Qed.

Lemma bwd_valid h a rs z x : bwd h a rs z → x ∈ rs ++ [z] → is_Some (h !! x).
Proof.
  revert a. induction rs as [|r rs IH]; intros a; simpl.
  - intros Ha ->%list_elem_of_singleton. by eapply prv_is_Some.
  - intros [Ha Hr] [->|Hin]%elem_of_cons; [by eapply prv_is_Some|eauto].
Qed.

(** The last node of [a :: rs] is redirected from [z] to [z']. *)
Lemma fwd_redirect h h' a rs z z' p :
  last (a :: rs) = Some p →
  NoDup (a :: rs) →
  nxt h' p = Some z' →
  (∀ x, x ∈ a :: rs → x ≠ p → nxt h' x = nxt h x) →
  fwd h a rs z → fwd h' a rs z'.
Proof.
  revert a. induction rs as [|r rs IH]; intros a Hl Hnd Hp Hx; simpl.
  - intros _. by simplify_eq/=.
  - intros [Ha Hr]. apply NoDup_cons in Hnd as [Hnin Hnd]. split.
    + rewrite <- Ha. apply Hx; [by left|]. intros ->. apply Hnin.
      rewrite last_cons_cons in Hl. by apply last_Some_elem_of.
    + apply IH; [by rewrite <- last_cons_cons with (x1 := a)|done..| |done].
      intros x Hin. apply Hx. by right.
Qed.

(** The first node of [rs ++ [z]] is redirected from [a] to [a']. *)
Lemma bwd_redirect h h' a a' rs z q :
  list.head (rs ++ [z]) = Some q →
  NoDup (rs ++ [z]) →
  prv h' q = Some a' →
  (∀ x, x ∈ rs ++ [z] → x ≠ q → prv h' x = prv h x) →
  bwd h a rs z → bwd h' a' rs z.
Proof.
  destruct rs as [|r rs]; simpl; intros Hq Hnd Hp Hx.
  - intros _. by simplify_eq.
  - intros [Ha Hr]. simplify_eq. split; [done|].
    apply NoDup_cons in Hnd as [Hnin Hnd].
    eapply bwd_frame; [|done]. intros x Hin.
    apply Hx; [by right|]. by intros ->.
Qed.

Lemma fwd_head h a rs z q :
  fwd h a rs z → nxt h a = Some q → list.head (rs ++ [z]) = Some q.
Proof. destruct rs; simpl; [|intros [? _]]; congruence. Qed.

Lemma bwd_last h a rs z p :
  bwd h a rs z → prv h z = Some p → last (a :: rs) = Some p.
Proof.
  revert a. induction rs as [|r rs IH]; intros a; simpl; [congruence|].
  intros [_ Hr] Hz. by apply (IH r).
Qed.

(** Enough fuel walks the whole chain. *)
Lemma walk_fwd h a rs z fuel :
  fwd h a rs z → z ∉ rs → (length rs < fuel)%nat →
  match nxt h a with Some n => walk fuel h n z | None => [] end = rs.
Proof.
  revert a fuel. induction rs as [|r rs IH]; intros a fuel; simpl.
  - intros -> _ Hf. destruct fuel; [lia|]. simpl. by rewrite decide_True.
  - intros [-> Hr] [Hne Hnin]%not_elem_of_cons Hf.
    destruct fuel as [|fuel]; [lia|]. simpl.
    rewrite decide_False by done. f_equal. apply IH; [done..|lia].
Qed.

(** Unlinking [r]: its predecessor and successor now point at each other. *)
Lemma unlink_chain h hd tl l1 r l2 p q :
  NoDup (hd :: (l1 ++ r :: l2) ++ [tl]) →
  fwd h hd (l1 ++ r :: l2) tl →
  bwd h hd (l1 ++ r :: l2) tl →
  prv h r = Some p →
  nxt h r = Some q →
  let h2 := set_prev q (Some p) (set_next p (Some q) h) in
  fwd h2 hd (l1 ++ l2) tl ∧ bwd h2 hd (l1 ++ l2) tl.
Proof.
  intros Hnd [Hf1 Hf2]%fwd_app [Hb1 Hb2]%bwd_app Hp Hq h2.
  pose proof (bwd_last _ _ _ _ _ Hb1 Hp) as Hlast.
  pose proof (fwd_head _ _ _ _ _ Hf2 Hq) as Hhead.
  rewrite <- app_assoc in Hnd.
  change (NoDup ((hd :: l1) ++ r :: (l2 ++ [tl]))) in Hnd.
  apply NoDup_app in Hnd as (Hnd1 & Hdisj & Hnd2).
  apply NoDup_cons in Hnd2 as [Hr2 Hnd2].
  assert (Hpin : p ∈ hd :: l1) by by apply last_Some_elem_of.
  assert (Hqin : q ∈ l2 ++ [tl]) by by apply head_Some_elem_of.
  pose proof (fwd_valid _ _ _ _ _ Hf1 Hpin) as Hpv.
  pose proof (bwd_valid _ _ _ _ _ Hb2 Hqin) as Hqv.
  assert (Hnp : nxt h2 p = Some q).
  { unfold h2. rewrite nxt_set_prev. by apply nxt_set_next_eq. }
  assert (Hnx : ∀ x, x ≠ p → nxt h2 x = nxt h x).
  { intros x Hx. unfold h2. by rewrite nxt_set_prev, nxt_set_next_ne. }
  assert (Hpq : prv h2 q = Some p).
  { unfold h2. apply prv_set_prev_eq. by apply lookup_set_next_is_Some. }
  assert (Hpx : ∀ x, x ≠ q → prv h2 x = prv h x).
  { intros x Hx. unfold h2. by rewrite prv_set_prev_ne, prv_set_next. }
  assert (Hf1' : fwd h2 hd l1 q) by eauto using fwd_redirect.
  assert (Hb2' : bwd h2 p l2 tl) by eauto using bwd_redirect.
  split.
  - destruct l2 as [|q' l2]; simplify_eq/=; [by rewrite app_nil_r|].
    apply fwd_app. split; [done|].
    eapply fwd_frame; [|apply Hf2]. intros x Hin. apply Hnx. intros ->.
    apply (Hdisj p Hpin). right. rewrite app_comm_cons.
    apply elem_of_app. by left.
  - destruct l1 as [|y l1 _] using rev_ind.
    { by simplify_eq/=. }
    rewrite app_comm_cons, last_snoc in Hlast. simplify_eq.
    rewrite <- app_assoc. simpl. apply bwd_app. split; [|done].
    apply bwd_app in Hb1 as [Hb1 _].
    eapply bwd_frame; [|done]. intros x Hin. apply Hpx. intros ->.
    apply (Hdisj q); [by right|by right].
Qed.

(** Linking [r] right after [hd]. *)
Lemma link_chain h hd tl rs r q :
  NoDup (hd :: rs ++ [tl]) →
  r ∉ hd :: rs ++ [tl] →
  is_Some (h !! r) →
  fwd h hd rs tl →
  bwd h hd rs tl →
  nxt h hd = Some q →
  let h4 := set_next hd (Some r)
              (set_prev q (Some r)
                 (set_prev r (Some hd) (set_next r (Some q) h))) in
  fwd h4 hd (r :: rs) tl ∧ bwd h4 hd (r :: rs) tl.
Proof.
  intros [Hhd Hnd]%NoDup_cons [Hrh Hrn]%not_elem_of_cons Hrv Hf Hb Hq h4.
  pose proof (fwd_head _ _ _ _ _ Hf Hq) as Hhead.
  assert (Hqin : q ∈ rs ++ [tl]) by by apply head_Some_elem_of.
  pose proof (bwd_valid _ _ _ _ _ Hb Hqin) as Hqv.
  assert (Hhv : is_Some (h !! hd)) by by eapply nxt_is_Some.
  assert (Hqr : q ≠ r) by by intros ->.
  assert (Hn_hd : nxt h4 hd = Some r).
  { unfold h4. apply nxt_set_next_eq.
    by rewrite !lookup_set_prev_is_Some, lookup_set_next_is_Some. }
  assert (Hn_r : nxt h4 r = Some q).
  { unfold h4. rewrite nxt_set_next_ne, !nxt_set_prev by done.
    by apply nxt_set_next_eq. }
  assert (Hnx : ∀ x, x ≠ hd → x ≠ r → nxt h4 x = nxt h x).
  { intros x ??. unfold h4.
    by rewrite nxt_set_next_ne, !nxt_set_prev, nxt_set_next_ne. }
  assert (Hp_q : prv h4 q = Some r).
  { unfold h4. rewrite prv_set_next. apply prv_set_prev_eq.
    by rewrite lookup_set_prev_is_Some, lookup_set_next_is_Some. }
  assert (Hp_r : prv h4 r = Some hd).
  { unfold h4. rewrite prv_set_next, prv_set_prev_ne by done.
    apply prv_set_prev_eq. by rewrite lookup_set_next_is_Some. }
  assert (Hpx : ∀ x, x ≠ q → x ≠ r → prv h4 x = prv h x).
  { intros x ??. unfold h4.
    by rewrite prv_set_next, !prv_set_prev_ne, prv_set_next. }
  split; simpl; (split; [done|]).
  - destruct rs as [|r' rs]; simplify_eq/=; [done|].
    destruct Hf as [_ Hf]. split; [done|].
    eapply fwd_frame; [|done]. intros x Hin.
    apply Hnx; intros ->; [apply Hhd|apply Hrn];
      rewrite app_comm_cons; apply elem_of_app; by left.
  - eapply bwd_redirect; [done..| |done].
    intros x Hin Hx. apply Hpx; [done|]. by intros ->.
Qed.
End chains.

(** ** Running the primitives *)

Arguments set_next : simpl never.
Arguments set_prev : simpl never.
Arguments nxt : simpl never.
Arguments prv : simpl never.
Arguments kvof : simpl never.

Lemma bind_Ok {A B} (m : M A) (f : A → M B) st a st1 t1 :
  m st = Ok (a, st1, t1) →
  (m ≫= f) st = match f a st1 with
                | Raise e => Raise e
                | Ok (b, st2, t2) => Ok (b, st2, t1 ++ t2)
                end.
Proof. intros H. unfold mbind, M_bind. by rewrite H. Qed.

Lemma getattr_next_ok st r q :
  nxt (store st) r = Some q →
  getattr next (Some r) st = Ok (Some q, st, [FieldRead]).
Proof.
  unfold nxt, getattr. destruct (store st !! r) as [n|]; [|done].
  simpl. by intros ->.
Qed.

Lemma getattr_prev_ok st r p :
  prv (store st) r = Some p →
  getattr prev (Some r) st = Ok (Some p, st, [FieldRead]).
Proof.
  unfold prv, getattr. destruct (store st !! r) as [n|]; [|done].
  simpl. by intros ->.
Qed.

Lemma getattr_val_ok st r k v :
  kvof (store st) r = Some (k, v) →
  getattr val (Some r) st = Ok (v, st, [FieldRead]).
Proof.
  unfold kvof, getattr. destruct (store st !! r) as [n|]; [|done].
  simpl. by intros [= _ ->].
Qed.

Lemma getattr_key_ok st r k v :
  kvof (store st) r = Some (k, v) →
  getattr key (Some r) st = Ok (k, st, [FieldRead]).
Proof.
  unfold kvof, getattr. destruct (store st !! r) as [n|]; [|done].
  simpl. by intros [= -> _].
Qed.

Lemma setattr_next_ok st r v :
  is_Some (store st !! r) →
  setattr_next (Some r) v st
  = Ok (tt, with_store st (set_next r v (store st)), [FieldWrite]).
Proof. intros [n Hn]. unfold setattr_next. by rewrite Hn. Qed.

Lemma setattr_prev_ok st r v :
  is_Some (store st !! r) →
  setattr_prev (Some r) v st
  = Ok (tt, with_store st (set_prev r v (store st)), [FieldWrite]).
Proof. intros [n Hn]. unfold setattr_prev. by rewrite Hn. Qed.

Lemma self_head_ok st hd :
  head st = Some hd → self_head st = Ok (Some hd, st, []).
Proof. unfold self_head. by intros ->. Qed.

Lemma self_tail_ok st tl :
  tail st = Some tl → self_tail st = Ok (Some tl, st, []).
Proof. unfold self_tail. by intros ->. Qed.

(** Run the first computation of a sequence, given how it behaves. *)
Ltac run_with tac := erewrite bind_Ok; [|solve [tac]].

(** ** The list primitives *)

Lemma Chain_valid st hd tl rs x :
  Chain st hd tl rs → x ∈ hd :: rs ++ [tl] → is_Some (store st !! x).
Proof.
  intros [_ _ _ Hf Hb] [->|Hin]%elem_of_cons.
  - eapply fwd_valid; [done|by left].
  - by eapply bwd_valid.
Qed.

Lemma _remove_spec st hd tl l1 r l2 :
  Chain st hd tl (l1 ++ r :: l2) →
  ∃ st', _remove (Some r) st = Ok (tt, st', remove_trace)
         ∧ Chain st' hd tl (l1 ++ l2)
         ∧ same_data st st'.
Proof.
  intros Hc. destruct Hc as [Hh Ht Hnd Hf Hb].
  pose proof Hf as [Hf1 Hf2]%fwd_app. pose proof Hb as [Hb1 Hb2]%bwd_app.
  assert (∃ q, nxt (store st) r = Some q) as [q Hq].
  { destruct l2; simpl in Hf2; [eauto|destruct Hf2; eauto]. }
  assert (∃ p, prv (store st) r = Some p) as [p Hp].
  { clear -Hb1. revert hd Hb1. induction l1 as [|y l1 IH]; simpl; [eauto|].
    intros hd [_ Hb]. eauto. }
  pose proof (bwd_last _ _ _ _ _ Hb1 Hp) as Hlast%last_Some_elem_of.
  pose proof (fwd_head _ _ _ _ _ Hf2 Hq) as Hhead%head_Some_elem_of.
  pose proof (fwd_valid _ _ _ _ _ Hf1 Hlast) as Hpv.
  pose proof (bwd_valid _ _ _ _ _ Hb2 Hhead) as Hqv.
  pose proof Hnd as Hnd'. rewrite <- app_assoc in Hnd'.
  change (NoDup ((hd :: l1) ++ r :: (l2 ++ [tl]))) in Hnd'.
  apply NoDup_app in Hnd' as (_ & Hdisj & [Hr2 _]%NoDup_cons).
  assert (Hpr : r ≠ p).
  { intros ->. apply (Hdisj p Hlast). by left. }
  destruct (unlink_chain _ _ _ _ _ _ _ _ Hnd Hf Hb Hp Hq) as [Hf' Hb'].
  exists (with_store st (set_prev q (Some p) (set_next p (Some q) (store st)))).
  split; [|split].
  - unfold _remove.
    run_with ltac:(by apply getattr_next_ok).
    run_with ltac:(by apply getattr_prev_ok).
    run_with ltac:(by apply setattr_next_ok).
    run_with ltac:(apply getattr_prev_ok; simpl; by rewrite prv_set_next).
    run_with ltac:(apply getattr_next_ok; simpl; by rewrite nxt_set_next_ne).
    rewrite setattr_prev_ok by (simpl; by apply lookup_set_next_is_Some).
    reflexivity.
  - split; simpl; [done|done| |done|done].
    rewrite <- app_assoc in Hnd |- *.
    by apply (NoDup_drop_middle (hd :: l1) r (l2 ++ [tl])).
  - split; simpl; [done..| |].
    + by rewrite length_set_prev, length_set_next.
    + intros x. by rewrite kvof_set_prev, kvof_set_next.
Qed.

Lemma _add_spec st hd tl rs r :
  Chain st hd tl rs →
  r ∉ hd :: rs ++ [tl] →
  is_Some (store st !! r) →
  ∃ st', _add (Some r) st = Ok (tt, st', add_trace)
         ∧ Chain st' hd tl (r :: rs)
         ∧ same_data st st'.
Proof.
  intros Hc Hr Hrv. destruct Hc as [Hh Ht Hnd Hf Hb].
  assert (∃ q, nxt (store st) hd = Some q) as [q Hq].
  { destruct rs; simpl in Hf; [eauto|destruct Hf; eauto]. }
  pose proof (fwd_head _ _ _ _ _ Hf Hq) as Hqin%head_Some_elem_of.
  pose proof (bwd_valid _ _ _ _ _ Hb Hqin) as Hqv.
  pose proof (nxt_is_Some _ _ _ Hq) as Hhv.
  assert (Hrh : hd ≠ r) by (intros ->; apply Hr; by left).
  destruct (link_chain _ _ _ _ _ _ Hnd Hr Hrv Hf Hb Hq) as [Hf' Hb'].
  exists (with_store st
            (set_next hd (Some r)
               (set_prev q (Some r)
                  (set_prev r (Some hd) (set_next r (Some q) (store st)))))).
  split; [|split].
  - unfold _add.
    run_with ltac:(by apply self_head_ok).
    run_with ltac:(by apply getattr_next_ok).
    run_with ltac:(by apply setattr_next_ok).
    run_with ltac:(by apply self_head_ok).
    run_with ltac:(apply setattr_prev_ok; simpl;
                   by apply lookup_set_next_is_Some).
    run_with ltac:(by apply self_head_ok).
    run_with ltac:(apply getattr_next_ok; simpl;
                   by rewrite nxt_set_prev, nxt_set_next_ne).
    run_with ltac:(apply setattr_prev_ok; simpl;
                   by rewrite lookup_set_prev_is_Some, lookup_set_next_is_Some).
    run_with ltac:(by apply self_head_ok).
    rewrite setattr_next_ok
      by (simpl; by rewrite !lookup_set_prev_is_Some, lookup_set_next_is_Some).
    reflexivity.
  - split; simpl; [done|done| |done|done].
    apply NoDup_cons in Hnd as [Hhd Hnd]. apply not_elem_of_cons in Hr as [? ?].
    rewrite !NoDup_cons, not_elem_of_cons. by split_and!.
  - split; simpl; [done..| |].
    + by rewrite length_set_next, !length_set_prev, length_set_next.
    + intros x. by rewrite kvof_set_next, !kvof_set_prev, kvof_set_next.
Qed.

(** ** Consequences of the invariant *)

Lemma NoDup_bounded_length (l : list nat) (n : nat) :
  NoDup l → (∀ x, x ∈ l → (x < n)%nat) → (length l ≤ n)%nat.
Proof.
  intros Hnd Hlt. rewrite <- (length_seq n 0).
  apply submseteq_length, NoDup_submseteq; [done|].
  intros x Hx%Hlt. apply elem_of_seq. lia.
Qed.

Section invariant.
Context (st : LRUCache) (hd tl : ref) (rs : list ref).
Hypothesis HI : Inv st hd tl rs.

Lemma Inv_nodes : nodes st = rs.
Proof.
  destruct HI as [[Hh Ht Hnd Hf Hb] _ _].
  assert (length (hd :: rs ++ [tl]) ≤ length (store st))%nat as Hlen.
  { apply NoDup_bounded_length; [done|]. intros x Hx.
    apply lookup_lt_is_Some. eapply Chain_valid; [|done]. by split. }
  simpl in Hlen. rewrite length_app in Hlen. simpl in Hlen.
  unfold nodes. rewrite Hh, Ht. apply walk_fwd; [done| |lia].
  apply NoDup_cons in Hnd as [_ Hnd].
  apply NoDup_app in Hnd as (_ & Hd & _).
  intros Hin. apply (Hd tl Hin). by left.
Qed.

Lemma Inv_items : items st = omap (kvof (store st)) rs.
Proof. unfold items. by rewrite Inv_nodes. Qed.

Lemma Inv_NoDup : NoDup rs.
Proof.
  destruct HI as [[_ _ Hnd _ _] _ _].
  apply NoDup_cons in Hnd as [_ Hnd]. by apply NoDup_app in Hnd as (? & _).
Qed.

Lemma Inv_kvof r : r ∈ rs → is_Some (kvof (store st) r).
Proof.
  intros Hr. apply kvof_is_Some. eapply Chain_valid; [apply HI|].
  right. apply elem_of_app. by left.
Qed.

Lemma Inv_items_fmap : Some <$> items st = kvof (store st) <$> rs.
Proof.
  assert (∀ r, r ∈ rs → is_Some (kvof (store st) r)) as Hall.
  { intros r Hr. by apply Inv_kvof. }
  rewrite Inv_items. clear -Hall. induction rs as [|r l IH]; [done|]. simpl.
  destruct (Hall r) as [kv Hkv]; [by left|]. rewrite Hkv. simpl.
  f_equal. apply IH. intros r' Hr'. apply Hall. by right.
Qed.

Lemma Inv_length : length (items st) = length rs.
Proof.
  rewrite <- (length_fmap Some (items st)), Inv_items_fmap.
  apply length_fmap.
Qed.

Lemma Inv_size : size (dict st) = length (items st).
Proof. rewrite Inv_length. apply HI. Qed.

(** An item of the list is the key and value of one of its nodes. *)
Lemma Inv_elem_of_items k v :
  (k, v) ∈ items st ↔ ∃ r, r ∈ rs ∧ kvof (store st) r = Some (k, v).
Proof. rewrite Inv_items, list_elem_of_omap. naive_solver. Qed.

(** The Index and the list hold the same entries. *)
Lemma Inv_stored k v : stored st k = Some v ↔ (k, v) ∈ items st.
Proof.
  rewrite Inv_elem_of_items. unfold stored. split.
  - destruct (dict st !! k) as [r|] eqn:Hd; [|done]. simpl.
    apply (inv_index _ _ _ _ HI) in Hd as [Hr Hk].
    destruct (kvof (store st) r) as [[k' v']|] eqn:Hkv; [|done].
    simpl in *. intros [= ->]. exists r. by simplify_eq.
  - intros (r & Hr & Hkv).
    assert (dict st !! k = Some r) as ->.
    { apply (inv_index _ _ _ _ HI). by rewrite Hkv. }
    simpl. by rewrite Hkv.
Qed.

Lemma Inv_dict_items k :
  is_Some (dict st !! k) ↔ k ∈ (items st).*1.
Proof.
  rewrite list_elem_of_fmap. split.
  - intros [r Hr]. pose proof Hr as [Hin Hk]%(inv_index _ _ _ _ HI).
    destruct (kvof (store st) r) as [[k' v]|] eqn:Hkv; [|done].
    simpl in Hk. simplify_eq. exists (k, v). split; [done|].
    apply Inv_elem_of_items. eauto.
  - intros ([k' v] & -> & (r & Hr & Hkv)%Inv_elem_of_items).
    exists r. apply (inv_index _ _ _ _ HI). by rewrite Hkv.
Qed.

(** No key occurs twice in the list. *)
Lemma Inv_NoDup_keys : NoDup (items st).*1.
Proof.
  assert (Some <$> (items st).*1 = (λ r, fst <$> kvof (store st) r) <$> rs)
    as Heq.
  { rewrite <- list_fmap_compose.
    change (Some ∘ fst) with ((fmap (M := option) fst) ∘ (@Some (Z * Z))).
    by rewrite list_fmap_compose, Inv_items_fmap, <- list_fmap_compose. }
  apply (NoDup_fmap_1 Some). rewrite Heq.
  apply NoDup_fmap_2_strong; [|apply Inv_NoDup].
  intros r1 r2 Hr1 Hr2 Hk.
  destruct (Inv_kvof r1 Hr1) as [[k v] Hkv].
  assert (dict st !! k = Some r1) as H1.
  { apply (inv_index _ _ _ _ HI). by rewrite Hkv. }
  assert (dict st !! k = Some r2) as H2.
  { apply (inv_index _ _ _ _ HI). split; [done|]. rewrite <- Hk.
    by rewrite Hkv. }
  congruence.
Qed.

Lemma Inv_dom : dom (dict st) = list_to_set (items st).*1.
Proof.
  apply set_eq. intros k.
  by rewrite elem_of_dom, elem_of_list_to_set, Inv_dict_items.
Qed.
End invariant.

(** ** Filtering entries by key *)

Lemma filter_key_absent (k : Z) (l : list (Z * Z)) :
  k ∉ l.*1 → filter (λ e, e.1 ≠ k) l = l.
Proof.
  induction l as [|[k' v'] l IH]; [done|]. simpl.
  intros [Hne Hnin]%not_elem_of_cons.
  rewrite filter_cons_True by (simpl; congruence). f_equal. by apply IH.
Qed.

Lemma filter_key_middle (k v : Z) (l1 l2 : list (Z * Z)) :
  NoDup (l1 ++ (k, v) :: l2).*1 →
  filter (λ e, e.1 ≠ k) (l1 ++ (k, v) :: l2) = l1 ++ l2.
Proof.
  rewrite fmap_app, fmap_cons. simpl.
  intros (_ & Hd & [Hk _]%NoDup_cons)%NoDup_app.
  rewrite filter_app, filter_cons_False by (simpl; tauto).
  rewrite !filter_key_absent; [done|done|].
  intros Hin. apply (Hd k Hin). by left.
Qed.

(** ** Specifications of the methods *)

Lemma same_data_refl st : same_data st st.
Proof. by split. Qed.

Lemma same_data_trans st1 st2 st3 :
  same_data st1 st2 → same_data st2 st3 → same_data st1 st3.
Proof.
  intros [] []. split; [congruence..|]. intros x. congruence.
Qed.

Lemma dict_contains_true st k r :
  dict st !! k = Some r → dict_contains k st = Ok (true, st, [IndexContains]).
Proof. intros H. unfold dict_contains. by rewrite H. Qed.

Lemma dict_contains_false st k :
  dict st !! k = None → dict_contains k st = Ok (false, st, [IndexContains]).
Proof. intros H. unfold dict_contains. by rewrite H. Qed.

Lemma dict_getitem_ok st k r :
  dict st !! k = Some r → dict_getitem k st = Ok (Some r, st, [IndexGet]).
Proof. intros H. unfold dict_getitem. by rewrite H. Qed.

Lemma dict_delitem_ok st k r :
  dict st !! k = Some r →
  dict_delitem k st = Ok (tt, with_dict st (delete k (dict st)), [IndexDel]).
Proof. intros H. unfold dict_delitem. by rewrite H. Qed.

Lemma new_spec cap :
  ∃ st, new cap = Ok (st, new_trace)
        ∧ Inv st 0%nat 1%nat []
        ∧ capacity st = cap.
Proof.
  eexists. split; [reflexivity|]. split; [|done].
  split; [split|..]; simpl; try done.
  - rewrite !NoDup_cons, !not_elem_of_cons. split_and!; try done; try lia.
    + apply not_elem_of_nil.
    + apply not_elem_of_nil.
    + apply NoDup_nil_2.
  - intros k r. rewrite lookup_empty. split; [done|].
    by intros [?%not_elem_of_nil _].
Qed.

Lemma get_miss_spec st k :
  dict st !! k = None → get k st = Ok (-1, st, get_miss_trace).
Proof.
  intros Hk. unfold get.
  run_with ltac:(by apply dict_contains_false). reflexivity.
Qed.

Lemma Inv_split st hd tl rs k r :
  Inv st hd tl rs → dict st !! k = Some r →
  ∃ l1 l2 v, rs = l1 ++ r :: l2 ∧ kvof (store st) r = Some (k, v)
             ∧ r ∉ hd :: (l1 ++ l2) ++ [tl].
Proof.
  intros HI Hk. pose proof Hk as [Hin Hkey]%(inv_index _ _ _ _ HI).
  apply list_elem_of_split in Hin as (l1 & l2 & ->).
  destruct (kvof (store st) r) as [[k' v]|] eqn:Hkv; [|done].
  simpl in Hkey. simplify_eq. exists l1, l2, v. split_and!; [done..|].
  destruct HI as [[_ _ Hnd _ _] _ _].
  rewrite <- app_assoc in Hnd |- *.
  change (NoDup ((hd :: l1) ++ r :: (l2 ++ [tl]))) in Hnd.
  apply NoDup_app in Hnd as (_ & Hd & [Hr _]%NoDup_cons).
  change (r ∉ (hd :: l1) ++ (l2 ++ [tl])). apply not_elem_of_app. split; [|done].
  intros Hin. apply (Hd r Hin). by left.
Qed.

Lemma get_hit_spec st hd tl rs k r :
  Inv st hd tl rs → dict st !! k = Some r →
  ∃ l1 l2 v st',
    rs = l1 ++ r :: l2
    ∧ kvof (store st) r = Some (k, v)
    ∧ get k st = Ok (v, st', get_hit_trace)
    ∧ Inv st' hd tl (r :: l1 ++ l2)
    ∧ same_data st st'.
Proof.
  intros HI Hk.
  destruct (Inv_split _ _ _ _ _ _ HI Hk) as (l1 & l2 & v & -> & Hkv & Hfresh).
  destruct (_remove_spec _ _ _ _ _ _ (inv_chain _ _ _ _ HI))
    as (st1 & Hrem & Hc1 & Hs1).
  assert (is_Some (store st1 !! r)) as Hv1.
  { apply kvof_is_Some. rewrite (same_kvof _ _ Hs1). by rewrite Hkv. }
  destruct (_add_spec _ _ _ _ _ Hc1 Hfresh Hv1) as (st2 & Hadd & Hc2 & Hs2).
  pose proof (same_data_trans _ _ _ Hs1 Hs2) as Hs.
  exists l1, l2, v, st2. split_and!; [done|done| |split|done].
  - unfold get.
    run_with ltac:(by eapply dict_contains_true). cbn [negb].
    run_with ltac:(by apply dict_getitem_ok).
    run_with ltac:(exact Hrem).
    run_with ltac:(exact Hadd).
    erewrite getattr_val_ok by (by rewrite (same_kvof _ _ Hs)).
    reflexivity.
  - done.
  - intros k0 r0. rewrite (same_dict _ _ Hs), (same_kvof _ _ Hs).
    rewrite (inv_index _ _ _ _ HI). rewrite !elem_of_cons, !elem_of_app, elem_of_cons.
    tauto.
  - rewrite (same_dict _ _ Hs), (inv_size _ _ _ _ HI).
    rewrite !length_app. simpl. rewrite length_app. lia.
Qed.

Lemma Chain_with_dict st hd tl rs d :
  Chain st hd tl rs → Chain (with_dict st d) hd tl rs.
Proof. intros []. by split. Qed.

(** Once a node is unlinked, deleting its key restores the invariant. *)
Lemma Inv_delete st st1 hd tl l1 r l2 k :
  Inv st hd tl (l1 ++ r :: l2) →
  dict st !! k = Some r →
  Chain st1 hd tl (l1 ++ l2) →
  same_data st st1 →
  Inv (with_dict st1 (delete k (dict st1))) hd tl (l1 ++ l2).
Proof.
  intros HI Hk Hc1 Hs.
  destruct (Inv_split _ _ _ _ _ _ HI Hk) as (l1' & l2' & v & _ & Hkv & _).
  clear l1' l2'.
  pose proof (Inv_NoDup _ _ _ _ HI) as Hnd.
  apply NoDup_app in Hnd as (_ & Hd & [Hr2 _]%NoDup_cons).
  assert (r ∉ l1 ++ l2) as Hr.
  { apply not_elem_of_app. split; [|done]. intros Hin.
    apply (Hd r Hin). by left. }
  split; simpl.
  - by apply Chain_with_dict.
  - intros k0 r0.
    rewrite (same_dict _ _ Hs), (same_kvof _ _ Hs), lookup_delete_Some.
    rewrite (inv_index _ _ _ _ HI). split.
    + intros (Hne & Hin & Hkey). split; [|done].
      apply elem_of_app in Hin as [?|[->|?]%elem_of_cons];
        apply elem_of_app; [by left| |by right].
      rewrite Hkv in Hkey. simpl in Hkey. congruence.
    + intros [Hin Hkey].
      assert (r0 ∈ l1 ++ r :: l2) as Hin'.
      { apply elem_of_app in Hin as [?|?]; apply elem_of_app;
          [by left|right; by right]. }
      split_and!; [|done..].
      intros <-. apply Hr.
      assert (dict st !! k = Some r0) as Hk0
        by by apply (inv_index _ _ _ _ HI).
      congruence.
  - rewrite (same_dict _ _ Hs), map_size_delete_Some by eauto.
    rewrite (inv_size _ _ _ _ HI), !length_app. simpl. lia.
Qed.

Lemma Inv_delete_absent st hd tl rs k :
  Inv st hd tl rs →
  dict st !! k = None →
  Inv (with_dict st (delete k (dict st))) hd tl rs.
Proof.
  intros HI Hk. rewrite delete_id by done. by destruct st.
Qed.

(** Linking a new node for [k], once no node of the list holds [k]. *)
Lemma link_new_spec st hd tl rs k v :
  Inv (with_dict st (delete k (dict st))) hd tl rs →
  let r := length (store st) in
  ∃ st',
    _add (Some r)
      (with_dict (with_store st (store st ++ [mkNode k v None None]))
                 (<[k := r]> (dict st)))
    = Ok (tt, st', add_trace)
    ∧ Inv st' hd tl (r :: rs)
    ∧ capacity st' = capacity st
    ∧ length (store st') = S (length (store st))
    ∧ kvof (store st') r = Some (k, v)
    ∧ (∀ x, is_Some (store st !! x) → kvof (store st') x = kvof (store st) x).
Proof.
  intros HI r. set (n := mkNode k v None None).
  set (st3 := with_dict (with_store st (store st ++ [n])) (<[k:=r]> (dict st))).
  pose proof (inv_chain _ _ _ _ HI) as Hc.
  assert (Hvalid : ∀ x, x ∈ hd :: rs ++ [tl] → is_Some (store st !! x)).
  { intros x Hx. by apply (Chain_valid _ _ _ _ _ Hc). }
  assert (Hc3 : Chain st3 hd tl rs).
  { destruct Hc as [Hh Ht Hnd Hf Hb]. split; simpl in *; [done..| |].
    - eapply fwd_frame; [|done]. intros x Hx. apply nxt_alloc, Hvalid.
      apply elem_of_cons in Hx as [->|Hx]; [by left|right].
      apply elem_of_app. by left.
    - eapply bwd_frame; [|done]. intros x Hx. apply prv_alloc, Hvalid.
      by right. }
  assert (Hfresh : r ∉ hd :: rs ++ [tl]).
  { intros Hin%Hvalid%lookup_lt_is_Some. unfold r in Hin. lia. }
  assert (Hrv : is_Some (store st3 !! r)).
  { unfold st3, r. simpl. rewrite lookup_alloc_new. eauto. }
  destruct (_add_spec _ _ _ _ _ Hc3 Hfresh Hrv) as (st' & Hadd & Hc' & Hs').
  assert (Hkv_new : kvof (store st') r = Some (k, v)).
  { rewrite (same_kvof _ _ Hs'). unfold st3, r. simpl. apply kvof_alloc_new. }
  assert (Hkv_old : ∀ x, is_Some (store st !! x) →
                         kvof (store st') x = kvof (store st) x).
  { intros x Hx. rewrite (same_kvof _ _ Hs'). unfold st3. simpl.
    by apply kvof_alloc. }
  exists st'. split_and!; [done| |by rewrite (same_capacity _ _ Hs')| |done|done].
  - split; [done| |].
    + intros k0 r0. rewrite (same_dict _ _ Hs'). simpl.
      rewrite <- insert_delete_eq, lookup_insert_Some.
      pose proof (inv_index _ _ _ _ HI k0 r0) as Hidx. simpl in Hidx.
      rewrite Hidx, elem_of_cons. split.
      * intros [[<- <-]|(Hne & Hin & Hkey)].
        -- split; [by left|]. by rewrite Hkv_new.
        -- split; [by right|]. rewrite Hkv_old; [done|].
           apply Hvalid. right. apply elem_of_app. by left.
      * intros [[->|Hin] Hkey].
        -- left. rewrite Hkv_new in Hkey. simpl in Hkey. by simplify_eq.
        -- right. rewrite Hkv_old in Hkey
             by (apply Hvalid; right; apply elem_of_app; by left).
           split_and!; [|done..]. intros <-.
           assert (delete k (dict st) !! k = Some r0) as Hdel
             by by apply Hidx.
           by rewrite lookup_delete_eq in Hdel.
    + rewrite (same_dict _ _ Hs'). simpl.
      rewrite <- insert_delete_eq, map_size_insert_None
        by apply lookup_delete_eq.
      f_equal. apply (inv_size _ _ _ _ HI).
  - rewrite (same_length _ _ Hs'). simpl. rewrite length_app. simpl. lia.
Qed.

Lemma omap_ext_elem_of {A B} (f g : A → option B) (l : list A) :
  (∀ x, x ∈ l → f x = g x) → omap f l = omap g l.
Proof.
  induction l as [|x l IH]; [done|]. intros Hfg. simpl.
  rewrite (Hfg x) by by left. destruct (g x); [f_equal|];
    apply IH; intros y Hy; apply Hfg; by right.
Qed.

Lemma omap_cons_Some {A B} (f : A → option B) x y (l : list A) :
  f x = Some y → omap f (x :: l) = y :: omap f l.
Proof. intros H. simpl. by rewrite H. Qed.

Lemma omap_snoc_Some {A B} (f : A → option B) x y (l : list A) :
  f x = Some y → omap f (l ++ [x]) = omap f l ++ [y].
Proof. intros H. by rewrite omap_app, (omap_cons_Some _ _ _ _ H). Qed.

Lemma evict_spec st hd tl init e :
  Inv st hd tl (init ++ [e]) →
  ∃ st', evict st = Ok (tt, st', evict_trace)
         ∧ Inv st' hd tl init
         ∧ capacity st' = capacity st
         ∧ (∀ x, kvof (store st') x = kvof (store st) x).
Proof.
  intros HI. pose proof (inv_chain _ _ _ _ HI) as Hc.
  pose proof (chain_bwd _ _ _ _ Hc) as [_ Hprev]%bwd_app. simpl in Hprev.
  destruct (_remove_spec _ _ _ _ _ _ Hc) as (st1 & Hrem & Hc1 & Hs1).
  destruct (Inv_kvof _ _ _ _ HI e) as [[ke ve] Hkv].
  { apply elem_of_app. right. by left. }
  assert (dict st !! ke = Some e) as Hke.
  { apply (inv_index _ _ _ _ HI). rewrite Hkv. split; [|done].
    apply elem_of_app. right. by left. }
  pose proof (Inv_delete _ _ _ _ _ _ _ _ HI Hke Hc1 Hs1) as HI'.
  rewrite app_nil_r in HI'.
  exists (with_dict st1 (delete ke (dict st1))). split_and!; [|done| |].
  - unfold evict.
    run_with ltac:(apply self_tail_ok, Hc).
    run_with ltac:(by apply getattr_prev_ok).
    run_with ltac:(exact Hrem).
    run_with ltac:(eapply getattr_key_ok; by rewrite (same_kvof _ _ Hs1)).
    erewrite dict_delitem_ok by (by rewrite (same_dict _ _ Hs1)).
    reflexivity.
  - simpl. apply Hs1.
  - intros x. simpl. apply Hs1.
Qed.

Lemma put_spec st hd tl rs k v :
  Inv st hd tl rs →
  ∃ st' rs',
    put k v st
    = Ok (tt, st',
          put_trace (bool_decide (is_Some (dict st !! k)))
            (bool_decide
               (capacity st < Z.of_nat (length (touch k v (items st))))))
    ∧ Inv st' hd tl rs'
    ∧ capacity st' = capacity st
    ∧ items st' = trim (capacity st) (touch k v (items st)).
Proof.
  intros HI. unfold put.
  run_with ltac:(reflexivity).
  assert (∃ st1 rs1,
    (if bool_decide (is_Some (dict st !! k))
     then old ← dict_getitem k; _remove old
     else mret tt) st
    = Ok (tt, st1,
          if bool_decide (is_Some (dict st !! k))
          then IndexGet :: remove_trace else [])
    ∧ Inv (with_dict st1 (delete k (dict st1))) hd tl rs1
    ∧ same_data st st1
    ∧ omap (kvof (store st)) rs1 = filter (λ e, e.1 ≠ k) (items st))
    as (st1 & rs1 & Hpre & HI1 & Hs1 & Hitems1).
  { destruct (dict st !! k) as [r|] eqn:Hk.
    - rewrite bool_decide_eq_true_2 by eauto.
      destruct (Inv_split _ _ _ _ _ _ HI Hk)
        as (l1 & l2 & vold & -> & Hkv & _).
      destruct (_remove_spec _ _ _ _ _ _ (inv_chain _ _ _ _ HI))
        as (st1 & Hrem & Hc1 & Hs1).
      exists st1, (l1 ++ l2). split_and!; [| |done|].
      + run_with ltac:(by apply dict_getitem_ok). by rewrite Hrem.
      + by eapply Inv_delete.
      + pose proof (Inv_NoDup_keys _ _ _ _ HI) as Hnd.
        assert (items st = omap (kvof (store st)) l1
                           ++ (k, vold) :: omap (kvof (store st)) l2) as Hit.
        { by rewrite (Inv_items _ _ _ _ HI), omap_app,
            (omap_cons_Some _ _ _ _ Hkv). }
        rewrite Hit in Hnd |- *.
        by rewrite filter_key_middle, omap_app.
    - rewrite bool_decide_eq_false_2 by (by intros [??]).
      exists st, rs. split_and!; [done| |apply same_data_refl|].
      + by apply Inv_delete_absent.
      + rewrite <- (Inv_items _ _ _ _ HI). symmetry. apply filter_key_absent.
        rewrite <- (Inv_dict_items _ _ _ _ HI), Hk. by intros [??]. }
  run_with ltac:(exact Hpre).
  run_with ltac:(reflexivity).
  run_with ltac:(reflexivity).
  destruct (link_new_spec _ _ _ _ k v HI1)
    as (st4 & Hadd & HI4 & Hcap4 & Hlen4 & Hkvnew & Hkvold).
  run_with ltac:(exact Hadd).
  run_with ltac:(reflexivity).
  run_with ltac:(reflexivity).
  assert (items st4 = touch k v (items st)) as Hitems4.
  { rewrite (Inv_items _ _ _ _ HI4), (omap_cons_Some _ _ _ _ Hkvnew).
    unfold touch. f_equal. rewrite <- Hitems1. apply omap_ext_elem_of. intros x Hx.
    rewrite <- (same_kvof _ _ Hs1). apply Hkvold.
    apply (Chain_valid _ _ _ _ _ (inv_chain _ _ _ _ HI1)).
    right. apply elem_of_app. by left. }
  rewrite (Inv_size _ _ _ _ HI4), Hitems4, Hcap4, (same_capacity _ _ Hs1).
  unfold trim.
  destruct (bool_decide (capacity st < Z.of_nat (length (touch k v (items st)))))
    eqn:Hover.
  - destruct (exists_last (l := length (store st1) :: rs1)) as (init & e & Heq);
      [done|].
    rewrite Heq in HI4.
    destruct (evict_spec _ _ _ _ _ HI4) as (st' & Hev & HI' & Hcap' & Hkv').
    unfold evict in Hev. rewrite Hev.
    exists st', init.
    split_and!; [|done|by rewrite Hcap', Hcap4, (same_capacity _ _ Hs1)|].
    + unfold put_trace. by destruct (bool_decide (is_Some (dict st !! k))).
    + rewrite <- Hitems4, (Inv_items _ _ _ _ HI'), (Inv_items _ _ _ _ HI4).
      destruct (Inv_kvof _ _ _ _ HI4 e) as [kv Hkv];
        [apply elem_of_app; right; by left|].
      rewrite (omap_snoc_Some _ _ _ _ Hkv), removelast_last.
      apply omap_ext_elem_of. auto.
  - exists st4, (length (store st1) :: rs1).
    split_and!; [|done|by rewrite Hcap4, (same_capacity _ _ Hs1)|done].
    unfold put_trace. by destruct (bool_decide (is_Some (dict st !! k))).
Qed.

(** [get], seen on the list of entries. *)
Lemma get_spec st hd tl rs k :
  Inv st hd tl rs →
  ∃ st' rs',
    get k st
    = Ok (default (-1) (stored st k), st',
          match stored st k with
          | Some _ => get_hit_trace
          | None => get_miss_trace
          end)
    ∧ Inv st' hd tl rs'
    ∧ same_data st st'
    ∧ items st' = match stored st k with
                  | Some v => touch k v (items st)
                  | None => items st
                  end.
Proof.
  intros HI. destruct (dict st !! k) as [r|] eqn:Hk.
  - destruct (get_hit_spec _ _ _ _ _ _ HI Hk)
      as (l1 & l2 & v & st' & -> & Hkv & Hget & HI' & Hs).
    assert (stored st k = Some v) as ->.
    { unfold stored. rewrite Hk. simpl. by rewrite Hkv. }
    exists st', (r :: l1 ++ l2). split_and!; [done..|].
    pose proof (Inv_NoDup_keys _ _ _ _ HI) as Hnd.
    assert (items st = omap (kvof (store st)) l1
                       ++ (k, v) :: omap (kvof (store st)) l2) as Hit.
    { by rewrite (Inv_items _ _ _ _ HI), omap_app,
        (omap_cons_Some _ _ _ _ Hkv). }
    rewrite Hit in Hnd |- *. unfold touch.
    rewrite filter_key_middle by done.
    rewrite (Inv_items _ _ _ _ HI').
    rewrite (omap_ext_elem_of _ (kvof (store st)))
      by (intros; apply (same_kvof _ _ Hs)).
    by rewrite (omap_cons_Some _ _ _ _ Hkv), omap_app.
  - assert (stored st k = None) as ->.
    { unfold stored. by rewrite Hk. }
    exists st, rs. split_and!; [|done|apply same_data_refl|done].
    by apply get_miss_spec.
Qed.

Lemma same_data_stored st st' k :
  same_data st st' → stored st' k = stored st k.
Proof.
  intros Hs. unfold stored. rewrite (same_dict _ _ Hs).
  destruct (dict st !! k) as [r|]; [|done]. simpl.
  by rewrite (same_kvof _ _ Hs).
Qed.

(** ** Reachable states *)

Lemma length_touch k v l : (length (touch k v l) ≤ S (length l))%nat.
Proof. unfold touch. simpl. pose proof (length_filter (λ e, e.1 ≠ k) l). lia. Qed.

Lemma length_trim cap l :
  Z.of_nat (length l) ≤ Z.max 0 cap + 1 →
  Z.of_nat (length (trim cap l)) ≤ Z.max 0 cap.
Proof.
  unfold trim. case_bool_decide as Hc; [|lia].
  destruct l as [|x l _] using rev_ind; [simpl; lia|].
  rewrite removelast_last, length_app. simpl. lia.
Qed.

(** Every reachable state satisfies the invariant, with the two
    sentinels the first two objects allocated, and holds no more entries
    than its capacity allows. *)
Lemma reachable_Inv st :
  reachable st →
  ∃ rs, Inv st 0%nat 1%nat rs
        ∧ Z.of_nat (length (items st)) ≤ Z.max 0 (capacity st).
Proof.
  induction 1 as [cap st t Hnew|st k v st' t _ [rs [HI Hb]] Hget
                 |st k v st' t _ [rs [HI Hb]] Hput].
  - destruct (new_spec cap) as (st0 & Hnew0 & HI & Hcap).
    rewrite Hnew in Hnew0. simplify_eq. exists []. split; [done|].
    rewrite (Inv_items _ _ _ _ HI). simpl. lia.
  - destruct (get_spec _ _ _ _ k HI) as (st1 & rs1 & Hget1 & HI1 & Hs & Hit).
    rewrite Hget in Hget1. simplify_eq. exists rs1. split; [done|].
    rewrite (same_capacity _ _ Hs).
    rewrite (Inv_length _ _ _ _ HI1), <- (inv_size _ _ _ _ HI1),
      (same_dict _ _ Hs), (Inv_size _ _ _ _ HI). done.
  - destruct (put_spec _ _ _ _ k v HI) as (st1 & rs1 & Hput1 & HI1 & Hc & Hit).
    rewrite Hput in Hput1. simplify_eq. exists rs1. split; [done|].
    rewrite Hit, Hc. apply length_trim.
    pose proof (length_touch k v (items st)). lia.
Qed.

Lemma exec_snoc cap ops o :
  exec cap (ops ++ [o]) = and_then (exec cap ops) o.
Proof. unfold exec. by rewrite foldl_app. Qed.

(** Every run returns, in a reachable state. *)
Lemma exec_reachable cap ops : ∃ st, exec cap ops = Ok st ∧ reachable st.
Proof.
  induction ops as [|o ops IH] using rev_ind.
  - destruct (new_spec cap) as (st & Hnew & _).
    exists st. unfold exec. rewrite Hnew. split; [done|].
    by eapply reach_new.
  - destruct IH as (st & Hex & Hr). rewrite exec_snoc, Hex. simpl.
    destruct (reachable_Inv _ Hr) as (rs & HI & _).
    destruct o as [k|k v]; simpl.
    + destruct (get_spec _ _ _ _ k HI) as (st' & _ & Hget & _).
      rewrite Hget. eexists. split; [done|]. by eapply reach_get.
    + destruct (put_spec _ _ _ _ k v HI) as (st' & _ & Hput & _).
      rewrite Hput. eexists. split; [done|]. by eapply reach_put.
Qed.

Lemma exec_capacity cap ops st : exec cap ops = Ok st → capacity st = cap.
Proof.
  revert st. induction ops as [|o ops IH] using rev_ind; intros st'.
  - destruct (new_spec cap) as (st & Hnew & _ & Hcap).
    unfold exec. rewrite Hnew. simpl. by intros [= <-].
  - rewrite exec_snoc. destruct (exec_reachable cap ops) as (st & Hex & Hr).
    rewrite Hex. simpl. specialize (IH _ Hex).
    destruct (reachable_Inv _ Hr) as (rs & HI & _).
    destruct o as [k|k v]; simpl.
    + destruct (get_spec _ _ _ _ k HI) as (st1 & _ & Hget & _ & Hs & _).
      rewrite Hget. intros [= <-]. by rewrite (same_capacity _ _ Hs).
    + destruct (put_spec _ _ _ _ k v HI) as (st1 & _ & Hput & _ & Hc & _).
      rewrite Hput. intros [= <-]. congruence.
Qed.

Lemma reachable_exec st : reachable st → ∃ cap ops, exec cap ops = Ok st.
Proof.
  induction 1 as [cap st t Hnew|st k v st' t _ (cap & ops & Hex) Hget
                 |st k v st' t _ (cap & ops & Hex) Hput].
  - exists cap, []. unfold exec. by rewrite Hnew.
  - exists cap, (ops ++ [Get k]). rewrite exec_snoc, Hex. simpl. by rewrite Hget.
  - exists cap, (ops ++ [Put k v]). rewrite exec_snoc, Hex. simpl.
    by rewrite Hput.
Qed.

(** ** Lemmas on touch order *)

Section touch_order.
Implicit Types (ops : list Op) (o : Op) (l : list Z).

Lemma last_touch_clock ops :
  (foldl last_touch_acc (∅, 0%nat) ops).2 = length ops.
Proof.
  induction ops as [|o ops IH] using rev_ind; [done|].
  rewrite foldl_app, length_app. simpl. rewrite IH. lia.
Qed.

Lemma last_touch_snoc ops o :
  last_touch (ops ++ [o]) = <[touched o := length ops]> (last_touch ops).
Proof.
  unfold last_touch. rewrite foldl_app. simpl.
  by rewrite last_touch_clock.
Qed.

Lemma last_touch_lt ops k t :
  last_touch ops !! k = Some t → (t < length ops)%nat.
Proof.
  revert t. induction ops as [|o ops IH] using rev_ind; intros t.
  - unfold last_touch. simpl. by rewrite lookup_empty.
  - rewrite last_touch_snoc, length_app. simpl.
    intros [[_ <-]|[_ Ht%IH]]%lookup_insert_Some; lia.
Qed.

Lemma StronglySorted_impl_elem_of (R R' : relation Z) l :
  (∀ a b, a ∈ l → b ∈ l → R a b → R' a b) →
  StronglySorted R l → StronglySorted R' l.
Proof.
  induction l as [|x l IH]; intros HR; [constructor|].
  rewrite !StronglySorted_cons, !Forall_forall. intros [Hx Hl]. split.
  - intros y Hy. apply HR; [by left|by right|by apply Hx].
  - apply IH; [|done]. intros a b Ha Hb. apply HR; by right.
Qed.

Lemma StronglySorted_filter (R : relation Z) (P : Z → Prop)
    `{!∀ x, Decision (P x)} l :
  StronglySorted R l → StronglySorted R (filter P l).
Proof.
  induction l as [|x l IH]; [done|].
  rewrite StronglySorted_cons. intros [Hx Hl].
  rewrite filter_cons. case_decide; [|by apply IH].
  apply StronglySorted_cons. split; [|by apply IH].
  apply Forall_forall. intros y [_ Hy]%list_elem_of_filter.
  by apply (proj1 (Forall_forall _ _) Hx).
Qed.

(** Touching a key not in the list leaves the order of the list. *)
Lemma recency_ordered_miss ops o l :
  touched o ∉ l →
  recency_ordered ops l → recency_ordered (ops ++ [o]) l.
Proof.
  intros Hk [Hs Hf]. split.
  - eapply StronglySorted_impl_elem_of; [|done].
    intros a b Ha Hb (ta & tb & Hta & Htb & Hlt). exists ta, tb.
    rewrite last_touch_snoc, !lookup_insert_ne by (intros <-; done).
    done.
  - apply Forall_forall. intros x Hx.
    rewrite last_touch_snoc, lookup_insert_ne by (intros <-; done).
    by apply (proj1 (Forall_forall _ _) Hf).
Qed.

(** Touching a key moves it to the front. *)
Lemma recency_ordered_touch ops o l :
  recency_ordered ops l →
  recency_ordered (ops ++ [o])
    (touched o :: filter (λ x, x ≠ touched o) l).
Proof.
  intros [Hs Hf]. pose proof (proj1 (Forall_forall _ _) Hf) as Hall.
  assert (recency_ordered (ops ++ [o]) (filter (λ x, x ≠ touched o) l))
    as [Hs' Hf'].
  { apply recency_ordered_miss.
    - by intros [? _]%list_elem_of_filter.
    - split; [by apply StronglySorted_filter|].
      apply Forall_forall. intros x [_ Hx]%list_elem_of_filter. auto. }
  split.
  - apply StronglySorted_cons. split; [|done].
    apply Forall_forall. intros x [Hne Hx]%list_elem_of_filter.
    destruct (Hall x Hx) as [tx Htx]. exists (length ops), tx.
    rewrite last_touch_snoc, lookup_insert_eq, lookup_insert_ne by done.
    split_and!; [done..|]. by eapply last_touch_lt.
  - constructor; [|done]. rewrite last_touch_snoc, lookup_insert_eq. eauto.
Qed.

Lemma recency_ordered_removelast ops l :
  recency_ordered ops l → recency_ordered ops (removelast l).
Proof.
  destruct l as [|x l _] using rev_ind; [done|].
  rewrite removelast_last. intros [Hs Hf]. split.
  - by eapply StronglySorted_app_1_l.
  - by apply Forall_app in Hf as [? _].
Qed.
End touch_order.

Lemma touch_keys k v (l : list (Z * Z)) :
  (touch k v l).*1 = k :: filter (λ x, x ≠ k) l.*1.
Proof.
  unfold touch. simpl. f_equal.
  induction l as [|[k' v'] l IH]; [done|]. simpl.
  rewrite !filter_cons. simpl. case_decide; simpl; by rewrite IH.
Qed.

Lemma removelast_keys (l : list (Z * Z)) :
  (removelast l).*1 = removelast l.*1.
Proof.
  destruct l as [|x l _] using rev_ind; [done|].
  rewrite fmap_app. simpl. by rewrite !removelast_last.
Qed.

Lemma Inv_stored_None st hd tl rs k :
  Inv st hd tl rs → stored st k = None → k ∉ (items st).*1.
Proof.
  intros HI Hk ([k' v] & -> & Hin)%list_elem_of_fmap.
  apply (Inv_stored _ _ _ _ HI) in Hin. simpl in *. congruence.
Qed.

(** The list of every run is ordered by last touch. *)
Lemma exec_recency_ordered cap ops :
  ∃ st, exec cap ops = Ok st ∧ recency_ordered ops (items st).*1.
Proof.
  induction ops as [|o ops IH] using rev_ind.
  - destruct (new_spec cap) as (st & Hnew & HI & _).
    exists st. unfold exec. rewrite Hnew. split; [done|].
    rewrite (Inv_items _ _ _ _ HI). split; constructor.
  - destruct IH as (st & Hex & Hord).
    destruct (exec_reachable cap ops) as (st0 & Hex0 & Hr).
    assert (st0 = st) as -> by congruence. clear Hex0.
    destruct (reachable_Inv _ Hr) as (rs & HI & _).
    rewrite exec_snoc, Hex. simpl. destruct o as [k|k v]; simpl.
    + destruct (get_spec _ _ _ _ k HI) as (st' & _ & Hget & _ & _ & Hit).
      rewrite Hget. exists st'. split; [done|]. rewrite Hit.
      destruct (stored st k) as [v|] eqn:Hk.
      * rewrite touch_keys. by apply (recency_ordered_touch _ (Get k)).
      * apply recency_ordered_miss; [|done]. simpl.
        by eapply Inv_stored_None.
    + destruct (put_spec _ _ _ _ k v HI) as (st' & _ & Hput & _ & _ & Hit).
      rewrite Hput. exists st'. split; [done|]. rewrite Hit. clear Hput.
      pose proof (recency_ordered_touch _ (Put k v) _ Hord) as Ht.
      simpl in Ht. rewrite <- (touch_keys k v) in Ht.
      unfold trim. case_bool_decide; [|done].
      rewrite removelast_keys. by apply recency_ordered_removelast.
Qed.

Lemma reachable_of_exec cap ops st : exec cap ops = Ok st → reachable st.
Proof.
  intros Hex. destruct (exec_reachable cap ops) as (st' & Hex' & Hr).
  congruence.
Qed.

(** * The properties of the cache *)

(** The scenario of the specification, step by step (capacity 2). *)
Example scenario_items :
  items (state_after 2 (take 2 scenario)) = [(2, 2); (1, 1)]
  ∧ returned (get 1 (state_after 2 (take 2 scenario))) = Some 1
  ∧ items (state_after 2 (take 3 scenario)) = [(1, 1); (2, 2)]
  ∧ items (state_after 2 (take 4 scenario)) = [(3, 3); (1, 1)]
  ∧ returned (get 2 (state_after 2 (take 4 scenario))) = Some (-1)
  ∧ items (state_after 2 (take 6 scenario)) = [(4, 4); (3, 3)]
  ∧ returned (get 1 (state_after 2 (take 6 scenario))) = Some (-1)
  ∧ returned (get 3 (state_after 2 (take 7 scenario))) = Some 3
  ∧ returned (get 4 (state_after 2 (take 8 scenario))) = Some 4.
Proof. vm_compute. by repeat split. Qed.

(** C9. [get] on a key absent from the Index returns the not-found result
    [-1] and leaves the whole state, the Index, the stored values and the
    Recency List, exactly as it was. *)
Theorem get_miss_is_pure st k :
  dict st !! k = None →
  get k st = Ok (-1, st, get_miss_trace).
Proof. apply get_miss_spec. Qed.

Lemma get_miss_is_pure_witness :
  dict (state_after 2 [Put 1 1]) !! 7 = None
  ∧ get 7 (state_after 2 [Put 1 1])
    = Ok (-1, state_after 2 [Put 1 1], get_miss_trace).
Proof.
  assert (dict (state_after 2 [Put 1 1]) !! 7 = None) as H
    by (vm_compute; reflexivity).
  split; [exact H|]. exact (get_miss_is_pure _ 7 H).
Defined.

(** C7. [get] on a key present in the Index returns the value stored in
    the key's node and relocates that node to the head of the Recency
    List; the Index, every stored value and the number of entries are
    unchanged. *)
Theorem get_hit_moves_to_front st k r :
  reachable st →
  dict st !! k = Some r →
  ∃ v st' l1 l2,
    stored st k = Some v
    ∧ get k st = Ok (v, st', get_hit_trace)
    ∧ nodes st = l1 ++ r :: l2
    ∧ nodes st' = r :: l1 ++ l2
    ∧ (k, v) ∈ items st
    ∧ items st' = (k, v) :: filter (λ e, e.1 ≠ k) (items st)
    ∧ (∀ k', stored st' k' = stored st k')
    ∧ dict st' = dict st
    ∧ length (items st') = length (items st).
Proof.
  intros Hr Hk. destruct (reachable_Inv _ Hr) as (rs & HI & _).
  destruct (get_hit_spec _ _ _ _ _ _ HI Hk)
    as (l1 & l2 & v & st' & -> & Hkv & Hget & HI' & Hs).
  assert (stored st k = Some v) as Hst.
  { unfold stored. rewrite Hk. simpl. by rewrite Hkv. }
  destruct (get_spec _ _ _ _ k HI) as (st2 & rs2 & Hget2 & _ & _ & Hit).
  rewrite Hst in Hget2, Hit. simpl in Hget2.
  assert (st2 = st') as -> by congruence.
  exists v, st', l1, l2. split_and!; [done|done| | | |done| |apply Hs|].
  - apply (Inv_nodes _ _ _ _ HI).
  - apply (Inv_nodes _ _ _ _ HI').
  - by apply (Inv_stored _ _ _ _ HI).
  - intros k'. by apply same_data_stored.
  - rewrite (Inv_length _ _ _ _ HI'), (Inv_length _ _ _ _ HI).
    simpl. rewrite !length_app. simpl. lia.
Qed.

Lemma get_hit_moves_to_front_witness :
  reachable (state_after 2 [Put 1 10; Put 2 20])
  ∧ dict (state_after 2 [Put 1 10; Put 2 20]) !! 1 = Some 2%nat
  ∧ ∃ v st' l1 l2,
      stored (state_after 2 [Put 1 10; Put 2 20]) 1 = Some v
      ∧ get 1 (state_after 2 [Put 1 10; Put 2 20])
        = Ok (v, st', get_hit_trace)
      ∧ nodes (state_after 2 [Put 1 10; Put 2 20]) = l1 ++ 2%nat :: l2
      ∧ nodes st' = 2%nat :: l1 ++ l2
      ∧ (1, v) ∈ items (state_after 2 [Put 1 10; Put 2 20])
      ∧ items st'
        = (1, v) :: filter (λ e, e.1 ≠ 1)
                      (items (state_after 2 [Put 1 10; Put 2 20]))
      ∧ (∀ k', stored st' k'
               = stored (state_after 2 [Put 1 10; Put 2 20]) k')
      ∧ dict st' = dict (state_after 2 [Put 1 10; Put 2 20])
      ∧ length (items st')
        = length (items (state_after 2 [Put 1 10; Put 2 20])).
Proof.
  assert (reachable (state_after 2 [Put 1 10; Put 2 20])) as Hr
    by (apply (reachable_of_exec 2 [Put 1 10; Put 2 20]);
        vm_compute; reflexivity).
  assert (dict (state_after 2 [Put 1 10; Put 2 20]) !! 1 = Some 2%nat) as Hk
    by (vm_compute; reflexivity).
  split; [exact Hr|]. split; [exact Hk|].
  exact (get_hit_moves_to_front _ 1 2%nat Hr Hk).
Defined.

(** C8. [put] on a key already in the Index maps the key to the new
    value and moves it to the head of the Recency List; the other entries
    and the number of entries are unchanged, and nothing is evicted. *)
Theorem put_existing_updates st k v :
  reachable st →
  is_Some (dict st !! k) →
  ∃ st',
    put k v st = Ok (tt, st', put_trace true false)
    ∧ stored st' k = Some v
    ∧ items st' = (k, v) :: filter (λ e, e.1 ≠ k) (items st)
    ∧ (∀ k', k' ≠ k → stored st' k' = stored st k')
    ∧ size (dict st') = size (dict st)
    ∧ dom (dict st') = dom (dict st)
    ∧ count_event IndexDel (put_trace true false) = 0%nat.
Proof.
  intros Hr Hk. destruct (reachable_Inv _ Hr) as (rs & HI & Hb).
  destruct (put_spec _ _ _ _ k v HI) as (st' & rs' & Hput & HI' & Hc & Hit).
  rewrite bool_decide_eq_true_2 in Hput by done.
  destruct Hk as [r Hk].
  destruct (Inv_split _ _ _ _ _ _ HI Hk) as (l1 & l2 & vold & -> & Hkv & _).
  pose proof (Inv_NoDup_keys _ _ _ _ HI) as Hnd.
  assert (items st = omap (kvof (store st)) l1
                     ++ (k, vold) :: omap (kvof (store st)) l2) as Hst.
  { by rewrite (Inv_items _ _ _ _ HI), omap_app,
      (omap_cons_Some _ _ _ _ Hkv). }
  assert (length (touch k v (items st)) = length (items st)) as Hlen.
  { unfold touch. rewrite Hst in Hnd |- *.
    rewrite filter_key_middle by done. simpl. rewrite !length_app. simpl. lia. }
  assert (¬ capacity st < Z.of_nat (length (touch k v (items st)))) as Hfit.
  { rewrite Hlen. rewrite Hst in Hb |- *. rewrite length_app in Hb |- *.
    simpl in Hb |- *. lia. }
  rewrite bool_decide_eq_false_2 in Hput by done.
  unfold trim in Hit. rewrite bool_decide_eq_false_2 in Hit by done.
  assert (∀ k' v', (k', v') ∈ items st' ↔
                   (k' = k ∧ v' = v) ∨ (k' ≠ k ∧ (k', v') ∈ items st)) as Hin.
  { intros k' v'. rewrite Hit. unfold touch.
    rewrite elem_of_cons, list_elem_of_filter. simpl.
    split; [intros [[= -> ->]|[??]]; auto|intros [[-> ->]|[??]]; auto]. }
  exists st'. split_and!; [done| |done| | | |done].
  - apply (Inv_stored _ _ _ _ HI'), Hin. by left.
  - intros k' Hne. apply option_eq. intros v'.
    rewrite (Inv_stored _ _ _ _ HI'), (Inv_stored _ _ _ _ HI), Hin.
    split; [intros [[??]|[??]]; done|intros ?; by right].
  - by rewrite (Inv_size _ _ _ _ HI'), (Inv_size _ _ _ _ HI), Hit.
  - rewrite (Inv_dom _ _ _ _ HI'), (Inv_dom _ _ _ _ HI).
    apply set_eq. intros k'. rewrite !elem_of_list_to_set, !list_elem_of_fmap.
    split.
    + intros ([k0 v0] & -> & [[-> ->]|[Hne Hin0]]%Hin); simpl.
      * exists (k, vold). split; [done|]. rewrite Hst.
        apply elem_of_app. right. by left.
      * by exists (k0, v0).
    + intros ([k0 v0] & -> & Hin0). simpl.
      destruct (decide (k0 = k)) as [->|Hne].
      * exists (k, v). split; [done|]. apply Hin. by left.
      * exists (k0, v0). split; [done|]. apply Hin. by right.
Qed.

Lemma put_existing_updates_witness :
  reachable (state_after 2 [Put 1 10; Put 2 20])
  ∧ is_Some (dict (state_after 2 [Put 1 10; Put 2 20]) !! 1)
  ∧ ∃ st',
      put 1 11 (state_after 2 [Put 1 10; Put 2 20])
      = Ok (tt, st', put_trace true false)
      ∧ stored st' 1 = Some 11
      ∧ items st'
        = (1, 11) :: filter (λ e, e.1 ≠ 1)
                       (items (state_after 2 [Put 1 10; Put 2 20]))
      ∧ (∀ k', k' ≠ 1 →
               stored st' k'
               = stored (state_after 2 [Put 1 10; Put 2 20]) k')
      ∧ size (dict st') = size (dict (state_after 2 [Put 1 10; Put 2 20]))
      ∧ dom (dict st') = dom (dict (state_after 2 [Put 1 10; Put 2 20]))
      ∧ count_event IndexDel (put_trace true false) = 0%nat.
Proof.
  assert (reachable (state_after 2 [Put 1 10; Put 2 20])) as Hr
    by (apply (reachable_of_exec 2 [Put 1 10; Put 2 20]);
        vm_compute; reflexivity).
  assert (is_Some (dict (state_after 2 [Put 1 10; Put 2 20]) !! 1)) as Hk
    by (exists 2%nat; vm_compute; reflexivity).
  split; [exact Hr|]. split; [exact Hk|].
  exact (put_existing_updates _ 1 11 Hr Hk).
Defined.

(** C1. On a cache of positive capacity, [put] of a key absent from the
    Index that pushes the number of entries above the capacity removes
    the entry of the node next to the tail sentinel, the last of the
    Recency List, from the list and from the Index; it is the only entry
    removed, by the one Index deletion the call performs. *)
Theorem put_evicts_least_recently_used st k v :
  reachable st →
  0 < capacity st →
  dict st !! k = None →
  capacity st < Z.of_nat (size (dict st)) + 1 →
  ∃ st' l e r,
    put k v st = Ok (tt, st', put_trace false true)
    ∧ tail st = Some 1%nat
    ∧ prv (store st) 1%nat = Some r
    ∧ kvof (store st) r = Some e
    ∧ items st = l ++ [e]
    ∧ items st' = (k, v) :: l
    ∧ dict st' !! e.1 = None
    ∧ (∀ k', k' ≠ e.1 →
             stored st' k' = if decide (k' = k) then Some v else stored st k')
    ∧ Z.of_nat (size (dict st')) = Z.of_nat (size (dict st)) + 1 - 1
    ∧ count_event IndexDel (put_trace false true) = 1%nat.
Proof.
  intros Hr Hpos Hk Hover. destruct (reachable_Inv _ Hr) as (rs & HI & Hb).
  destruct (put_spec _ _ _ _ k v HI) as (st' & rs' & Hput & HI' & Hc & Hit).
  rewrite bool_decide_eq_false_2 in Hput by (rewrite Hk; by intros [??]).
  assert (k ∉ (items st).*1) as Hnk.
  { rewrite <- (Inv_dict_items _ _ _ _ HI), Hk. by intros [??]. }
  assert (touch k v (items st) = (k, v) :: items st) as Ht.
  { unfold touch. by rewrite filter_key_absent. }
  rewrite Ht in Hput, Hit. rewrite (Inv_size _ _ _ _ HI) in Hover.
  assert (capacity st < Z.of_nat (length ((k, v) :: items st))) as Hover'.
  { simpl. lia. }
  rewrite bool_decide_eq_true_2 in Hput by done.
  unfold trim in Hit. rewrite bool_decide_eq_true_2 in Hit by done.
  destruct rs as [|r0 rs0 _] using rev_ind.
  { rewrite (Inv_items _ _ _ _ HI) in Hover. simpl in Hover. lia. }
  destruct (Inv_kvof _ _ _ _ HI r0) as [e He];
    [apply elem_of_app; right; by left|].
  set (l := omap (kvof (store st)) rs0).
  assert (items st = l ++ [e]) as Hst.
  { by rewrite (Inv_items _ _ _ _ HI), (omap_snoc_Some _ _ _ _ He). }
  rewrite Hst, app_comm_cons, removelast_last in Hit.
  pose proof (Inv_NoDup_keys _ _ _ _ HI) as Hnd.
  rewrite Hst, fmap_app in Hnd, Hnk. simpl in Hnd, Hnk.
  apply NoDup_app in Hnd as (_ & Hdisj & _).
  apply not_elem_of_app in Hnk as [Hnkl Hnke].
  assert (e.1 ≠ k) as Hek.
  { intros Heq. apply Hnke. rewrite Heq. by left. }
  assert (e.1 ∉ l.*1) as Hel.
  { intros Hin. apply (Hdisj _ Hin). by left. }
  pose proof (chain_bwd _ _ _ _ (inv_chain _ _ _ _ HI)) as [_ Hprev]%bwd_app.
  simpl in Hprev.
  exists st', l, e, r0.
  split_and!; [done|apply HI|done|done|done|done| | | |done].
  - apply eq_None_not_Some. rewrite (Inv_dict_items _ _ _ _ HI'), Hit.
    simpl. by intros [?|?]%elem_of_cons.
  - intros k' Hne. apply option_eq. intros v'.
    rewrite (Inv_stored _ _ _ _ HI'), Hit, elem_of_cons.
    case_decide as Hkk.
    + subst k'. split; [|intros [= ->]; by left].
      intros [[= ->]|Hin]; [done|]. exfalso. apply Hnkl.
      apply list_elem_of_fmap. by exists (k, v').
    + rewrite (Inv_stored _ _ _ _ HI), Hst, elem_of_app,
        list_elem_of_singleton.
      split; [intros [[= ??]|?]; [done|by left]|].
      intros [?|Heq]; [by right|]. subst e. done.
  - rewrite (Inv_size _ _ _ _ HI'), (Inv_size _ _ _ _ HI), Hit, Hst.
    simpl. rewrite length_app. simpl. lia.
Qed.

Lemma put_evicts_least_recently_used_witness :
  reachable (state_after 2 [Put 1 10; Put 2 20])
  ∧ 0 < capacity (state_after 2 [Put 1 10; Put 2 20])
  ∧ dict (state_after 2 [Put 1 10; Put 2 20]) !! 3 = None
  ∧ capacity (state_after 2 [Put 1 10; Put 2 20])
    < Z.of_nat (size (dict (state_after 2 [Put 1 10; Put 2 20]))) + 1
  ∧ ∃ st' l e r,
      put 3 30 (state_after 2 [Put 1 10; Put 2 20])
      = Ok (tt, st', put_trace false true)
      ∧ tail (state_after 2 [Put 1 10; Put 2 20]) = Some 1%nat
      ∧ prv (store (state_after 2 [Put 1 10; Put 2 20])) 1%nat = Some r
      ∧ kvof (store (state_after 2 [Put 1 10; Put 2 20])) r = Some e
      ∧ items (state_after 2 [Put 1 10; Put 2 20]) = l ++ [e]
      ∧ items st' = (3, 30) :: l
      ∧ dict st' !! e.1 = None
      ∧ (∀ k', k' ≠ e.1 →
               stored st' k'
               = if decide (k' = 3) then Some 30
                 else stored (state_after 2 [Put 1 10; Put 2 20]) k')
      ∧ Z.of_nat (size (dict st'))
        = Z.of_nat (size (dict (state_after 2 [Put 1 10; Put 2 20]))) + 1 - 1
      ∧ count_event IndexDel (put_trace false true) = 1%nat.
Proof.
  assert (reachable (state_after 2 [Put 1 10; Put 2 20])) as Hr
    by (apply (reachable_of_exec 2 [Put 1 10; Put 2 20]);
        vm_compute; reflexivity).
  assert (0 < capacity (state_after 2 [Put 1 10; Put 2 20])) as Hpos
    by (vm_compute; reflexivity).
  assert (dict (state_after 2 [Put 1 10; Put 2 20]) !! 3 = None) as Hk
    by (vm_compute; reflexivity).
  assert (capacity (state_after 2 [Put 1 10; Put 2 20])
          < Z.of_nat (size (dict (state_after 2 [Put 1 10; Put 2 20]))) + 1)
    as Hover by (vm_compute; reflexivity).
  split_and!; [exact Hr|exact Hpos|exact Hk|exact Hover|].
  exact (put_evicts_least_recently_used _ 3 30 Hr Hpos Hk Hover).
Defined.

(** C2. On a cache of positive capacity, after every call of a finite
    sequence of [get] and [put] calls, each of which returns, the number
    of entries of the Index is between 0 and the capacity. *)
Theorem capacity_bound cap ops n :
  0 < cap →
  ∃ st, exec cap (take n ops) = Ok st
        ∧ capacity st = cap
        ∧ 0 ≤ Z.of_nat (size (dict st)) ≤ cap.
Proof.
  intros Hpos. destruct (exec_reachable cap (take n ops)) as (st & Hex & Hr).
  pose proof (exec_capacity _ _ _ Hex) as Hcap.
  destruct (reachable_Inv _ Hr) as (rs & HI & Hb).
  exists st. split_and!; [done|done|lia|].
  rewrite (Inv_size _ _ _ _ HI). lia.
Qed.

Lemma capacity_bound_witness :
  0 < 2
  ∧ ∃ st, exec 2 (take 4 scenario) = Ok st
          ∧ capacity st = 2
          ∧ 0 ≤ Z.of_nat (size (dict st)) ≤ 2.
Proof.
  assert (0 < 2) as Hpos by lia.
  split; [exact Hpos|]. exact (capacity_bound 2 scenario 4 Hpos).
Defined.

(** C5. In every reachable state the keys of the Index are exactly the
    keys of the entries linked into the Recency List between the two
    sentinels: the same set, the same number, no key twice, and the Index
    maps each key to the linked node that holds it. *)
Theorem index_matches_recency_list st :
  reachable st →
  dom (dict st) = list_to_set (items st).*1
  ∧ size (dict st) = length (items st)
  ∧ NoDup (items st).*1
  ∧ length (nodes st) = length (items st)
  ∧ (∀ k r, dict st !! k = Some r
            ↔ r ∈ nodes st ∧ fst <$> kvof (store st) r = Some k).
Proof.
  intros Hr. destruct (reachable_Inv _ Hr) as (rs & HI & _).
  split_and!.
  - by eapply Inv_dom.
  - by eapply Inv_size.
  - by eapply Inv_NoDup_keys.
  - by rewrite (Inv_nodes _ _ _ _ HI), (Inv_length _ _ _ _ HI).
  - rewrite (Inv_nodes _ _ _ _ HI). apply HI.
Qed.

Lemma index_matches_recency_list_witness :
  reachable (state_after 2 scenario)
  ∧ dom (dict (state_after 2 scenario))
    = list_to_set (items (state_after 2 scenario)).*1
  ∧ size (dict (state_after 2 scenario))
    = length (items (state_after 2 scenario))
  ∧ NoDup (items (state_after 2 scenario)).*1
  ∧ length (nodes (state_after 2 scenario))
    = length (items (state_after 2 scenario))
  ∧ (∀ k r, dict (state_after 2 scenario) !! k = Some r
            ↔ r ∈ nodes (state_after 2 scenario)
              ∧ fst <$> kvof (store (state_after 2 scenario)) r = Some k).
Proof.
  assert (reachable (state_after 2 scenario)) as Hr
    by (apply (reachable_of_exec 2 scenario); vm_compute; reflexivity).
  split; [exact Hr|]. exact (index_matches_recency_list _ Hr).
Defined.

(** C6. After any sequence of [get] and [put] calls on a cache of
    positive capacity, the keys of the Recency List, walked from head to
    tail, are the live keys in reverse chronological order of their most
    recent touch: every key of the list was touched, and each key was
    last touched after all the keys behind it. *)
Theorem recency_list_in_touch_order cap ops :
  0 < cap →
  ∃ st, exec cap ops = Ok st
        ∧ dom (dict st) = list_to_set (items st).*1
        ∧ recency_ordered ops (items st).*1.
Proof.
  intros _. destruct (exec_recency_ordered cap ops) as (st & Hex & Hord).
  exists st. split_and!; [done| |done].
  destruct (reachable_Inv _ (reachable_of_exec _ _ _ Hex)) as (rs & HI & _).
  by eapply Inv_dom.
Qed.

Lemma recency_list_in_touch_order_witness :
  0 < 2
  ∧ ∃ st, exec 2 scenario = Ok st
          ∧ dom (dict st) = list_to_set (items st).*1
          ∧ recency_ordered scenario (items st).*1.
Proof.
  assert (0 < 2) as Hpos by lia.
  split; [exact Hpos|]. exact (recency_list_in_touch_order 2 scenario Hpos).
Defined.

(** C3. As claimed, constructing a cache with a capacity that is not
    positive would raise.  It does not: capacity 0 yields a cache. *)
Lemma construction_error_counterexample :
  0 ≤ 0
  ∧ new 0 = Ok (mkLRU [mkNode (-1) (-1) None (Some 1%nat);
                       mkNode (-1) (-1) (Some 0%nat) None]
                      ∅ 0 (Some 0%nat) (Some 1%nat),
                new_trace)
  ∧ ¬ ∃ e, new 0 = Raise e.
Proof.
  split; [lia|]. split; [reflexivity|]. intros [e He]. vm_compute in He.
  discriminate He.
Qed.

(** C3, amended. Constructing a cache never fails, whatever the integer
    capacity, positive or not: it returns at once an empty cache that
    holds the capacity as given. *)
Theorem new_never_fails cap :
  ∃ st, new cap = Ok (st, new_trace)
        ∧ capacity st = cap
        ∧ dict st = ∅
        ∧ items st = []
        ∧ reachable st.
Proof.
  eexists. split; [reflexivity|]. split_and!; [done..|].
  by eapply (reach_new cap).
Qed.

(** C4. As claimed, the result of [get] on a present key would always
    differ from the result on an absent key.  A stored value of [-1] is
    returned as is, and is the not-found result. *)
Lemma missing_result_counterexample :
  reachable (state_after 2 [Put 1 (-1)])
  ∧ stored (state_after 2 [Put 1 (-1)]) 1 = Some (-1)
  ∧ dict (state_after 2 [Put 1 (-1)]) !! 2 = None
  ∧ returned (get 1 (state_after 2 [Put 1 (-1)]))
    = returned (get 2 (state_after 2 [Put 1 (-1)])).
Proof.
  split; [|by vm_compute].
  apply (reachable_of_exec 2 [Put 1 (-1)]). vm_compute. reflexivity.
Qed.

(** C4, amended. In every reachable state, [get] on an absent key
    returns [-1] and raises nothing, and [get] on a present key whose
    stored value is not [-1] returns that value, which differs from the
    result for any absent key. *)
Theorem missing_result_is_minus_one st :
  reachable st →
  (∀ k', dict st !! k' = None →
         get k' st = Ok (-1, st, get_miss_trace))
  ∧ (∀ k v k', is_Some (dict st !! k) → stored st k = Some v → v ≠ -1 →
               dict st !! k' = None →
               returned (get k st) = Some v
               ∧ returned (get k st) ≠ returned (get k' st)).
Proof.
  intros Hr. split; [intros k'; apply get_miss_spec|].
  intros k v k' _ Hst Hv Hk'.
  destruct (reachable_Inv _ Hr) as (rs & HI & _).
  destruct (get_spec _ _ _ _ k HI) as (st' & _ & Hget & _).
  rewrite Hst in Hget. simpl in Hget.
  rewrite Hget, (get_miss_spec _ _ Hk'). simpl.
  split; [done|]. intros [= ?]. done.
Qed.

Lemma missing_result_is_minus_one_witness :
  reachable (state_after 2 [Put 1 10])
  ∧ get 2 (state_after 2 [Put 1 10])
    = Ok (-1, state_after 2 [Put 1 10], get_miss_trace)
  ∧ returned (get 1 (state_after 2 [Put 1 10])) = Some 10
  ∧ returned (get 1 (state_after 2 [Put 1 10]))
    ≠ returned (get 2 (state_after 2 [Put 1 10])).
Proof.
  assert (reachable (state_after 2 [Put 1 10])) as Hr
    by (apply (reachable_of_exec 2 [Put 1 10]); vm_compute; reflexivity).
  assert (dict (state_after 2 [Put 1 10]) !! 2 = None) as Hk'
    by (vm_compute; reflexivity).
  assert (is_Some (dict (state_after 2 [Put 1 10]) !! 1)) as Hk
    by (exists 2%nat; vm_compute; reflexivity).
  assert (stored (state_after 2 [Put 1 10]) 1 = Some 10) as Hst
    by (vm_compute; reflexivity).
  assert (10 ≠ -1) as Hv by lia.
  split; [exact Hr|]. split.
  - exact (proj1 (missing_result_is_minus_one _ Hr) 2 Hk').
  - exact (proj2 (missing_result_is_minus_one _ Hr) 1 10 2 Hk Hst Hv Hk').
Defined.

(** C10. As claimed, [get] would look a key up in the Index once.  On a
    hit it does so twice: the membership test, then the fetch. *)
Lemma one_lookup_counterexample :
  reachable (state_after 2 [Put 1 10])
  ∧ ∃ st', get 1 (state_after 2 [Put 1 10]) = Ok (10, st', get_hit_trace)
           ∧ index_lookups get_hit_trace = 2%nat
           ∧ ¬ (index_lookups get_hit_trace ≤ 1)%nat.
Proof.
  split.
  - apply (reachable_of_exec 2 [Put 1 10]). vm_compute. reflexivity.
  - eexists. split; [vm_compute; reflexivity|]. split; [reflexivity|].
    vm_compute. lia.
Qed.

(** C10, amended. In every reachable state [get] and [put] return after
    a number of primitive steps bounded independently of the number of
    entries: at most two Index lookups (a membership test and a fetch);
    for [put] one Index insert, one size query, one node allocation and
    at most one Index removal, none of these for [get]; and a bounded
    number of reads and writes of node fields, hence no traversal of the
    Recency List. *)
Theorem operations_take_constant_steps st k v :
  reachable st →
  (∃ x st' t,
     get k st = Ok (x, st', t)
     ∧ (index_lookups t ≤ 2)%nat
     ∧ count_event IndexSet t = 0%nat
     ∧ count_event IndexDel t = 0%nat
     ∧ count_event IndexLen t = 0%nat
     ∧ count_event NewNode t = 0%nat
     ∧ (field_accesses t ≤ 13)%nat
     ∧ (length t ≤ 15)%nat)
  ∧ (∃ st' t,
       put k v st = Ok (tt, st', t)
       ∧ (index_lookups t ≤ 2)%nat
       ∧ count_event IndexSet t = 1%nat
       ∧ (count_event IndexDel t ≤ 1)%nat
       ∧ count_event IndexLen t = 1%nat
       ∧ count_event NewNode t = 1%nat
       ∧ (field_accesses t ≤ 20)%nat
       ∧ (length t ≤ 26)%nat).
Proof.
  intros Hr. destruct (reachable_Inv _ Hr) as (rs & HI & _). split.
  - destruct (get_spec _ _ _ _ k HI) as (st' & _ & Hget & _).
    eexists _, st', _. split; [exact Hget|].
    destruct (stored st k); vm_compute; repeat split; lia.
  - destruct (put_spec _ _ _ _ k v HI) as (st' & _ & Hput & _).
    eexists st', _. split; [exact Hput|].
    destruct (bool_decide (is_Some (dict st !! k))),
      (bool_decide (capacity st < Z.of_nat (length (touch k v (items st)))));
      vm_compute; repeat split; lia.
Qed.

Lemma operations_take_constant_steps_witness :
  reachable (state_after 2 [Put 1 10; Put 2 20])
  ∧ (∃ x st' t,
       get 1 (state_after 2 [Put 1 10; Put 2 20]) = Ok (x, st', t)
       ∧ (index_lookups t ≤ 2)%nat
       ∧ count_event IndexSet t = 0%nat
       ∧ count_event IndexDel t = 0%nat
       ∧ count_event IndexLen t = 0%nat
       ∧ count_event NewNode t = 0%nat
       ∧ (field_accesses t ≤ 13)%nat
       ∧ (length t ≤ 15)%nat)
  ∧ (∃ st' t,
       put 1 30 (state_after 2 [Put 1 10; Put 2 20]) = Ok (tt, st', t)
       ∧ (index_lookups t ≤ 2)%nat
       ∧ count_event IndexSet t = 1%nat
       ∧ (count_event IndexDel t ≤ 1)%nat
       ∧ count_event IndexLen t = 1%nat
       ∧ count_event NewNode t = 1%nat
       ∧ (field_accesses t ≤ 20)%nat
       ∧ (length t ≤ 26)%nat).
Proof.
  assert (reachable (state_after 2 [Put 1 10; Put 2 20])) as Hr
    by (apply (reachable_of_exec 2 [Put 1 10; Put 2 20]);
        vm_compute; reflexivity).
  split; [exact Hr|]. exact (operations_take_constant_steps _ 1 30 Hr).
Defined.

(** * Further properties of the cache *)

(** The demonstration prints what its comments announce. *)
Example main_prints : main = Ok [1; -1; -1; 3; 4].
Proof. vm_compute. reflexivity. Qed.

(** ** The first entry survives the trimming *)

Lemma trim_cons cap x l :
  0 < cap → ∃ l', trim cap (x :: l) = x :: l'.
Proof.
  intros Hpos. unfold trim. case_bool_decide as Hc; [|eauto].
  destruct l as [|y l]; [simpl in Hc; lia|]. simpl. eauto.
Qed.

Lemma trim_cons_cons cap x y l :
  2 ≤ cap → ∃ l', trim cap (x :: y :: l) = x :: y :: l'.
Proof.
  intros Hpos. unfold trim. case_bool_decide as Hc; [|eauto].
  destruct l as [|z l]; [simpl in Hc; lia|]. simpl. eauto.
Qed.

(** X1. On a reachable cache of positive capacity, [put(key, value)]
    followed by [get(key)] returns [value]: the entry just written is
    never the one evicted. *)
Theorem put_then_get_returns_value st k v :
  reachable st →
  0 < capacity st →
  ∃ st1 t1 st2,
    put k v st = Ok (tt, st1, t1)
    ∧ stored st1 k = Some v
    ∧ get k st1 = Ok (v, st2, get_hit_trace).
Proof.
  intros Hr Hpos. destruct (reachable_Inv _ Hr) as (rs & HI & _).
  destruct (put_spec _ _ _ _ k v HI) as (st1 & rs1 & Hput & HI1 & _ & Hit).
  destruct (trim_cons (capacity st) (k, v)
              (filter (λ e, e.1 ≠ k) (items st)) Hpos) as [l' Hl'].
  unfold touch in Hit. rewrite Hl' in Hit.
  assert (stored st1 k = Some v) as Hst.
  { apply (Inv_stored _ _ _ _ HI1). rewrite Hit. by left. }
  destruct (get_spec _ _ _ _ k HI1) as (st2 & _ & Hget & _).
  rewrite Hst in Hget. simpl in Hget. eauto 10.
Qed.

Lemma put_then_get_returns_value_witness :
  reachable (state_after 1 [Put 1 10])
  ∧ 0 < capacity (state_after 1 [Put 1 10])
  ∧ ∃ st1 t1 st2,
      put (-1) 5 (state_after 1 [Put 1 10]) = Ok (tt, st1, t1)
      ∧ stored st1 (-1) = Some 5
      ∧ get (-1) st1 = Ok (5, st2, get_hit_trace).
Proof.
  assert (reachable (state_after 1 [Put 1 10])) as Hr
    by (apply (reachable_of_exec 1 [Put 1 10]); vm_compute; reflexivity).
  assert (0 < capacity (state_after 1 [Put 1 10])) as Hpos
    by (vm_compute; reflexivity).
  split; [exact Hr|]. split; [exact Hpos|].
  exact (put_then_get_returns_value _ (-1) 5 Hr Hpos).
Defined.

(** X2. A cache constructed with a capacity that is not positive holds
    nothing: after any sequence of calls, none of which raises, the Index
    and the Recency List are empty, since every [put] evicts the entry it
    has just linked, and every [get] returns [-1]. *)
Theorem nonpositive_capacity_holds_nothing cap ops k :
  cap ≤ 0 →
  ∃ st, exec cap ops = Ok st
        ∧ dict st = ∅
        ∧ items st = []
        ∧ get k st = Ok (-1, st, get_miss_trace).
Proof.
  intros Hcap. destruct (exec_reachable cap ops) as (st & Hex & Hr).
  pose proof (exec_capacity _ _ _ Hex) as Hc.
  destruct (reachable_Inv _ Hr) as (rs & HI & Hb).
  assert (items st = []) as Hit.
  { apply length_zero_iff_nil. lia. }
  assert (dict st = ∅) as Hd.
  { apply map_size_empty_inv. by rewrite (Inv_size _ _ _ _ HI), Hit. }
  exists st. split_and!; [done..|].
  apply get_miss_spec. by rewrite Hd, lookup_empty.
Qed.

Lemma nonpositive_capacity_holds_nothing_witness :
  0 ≤ 0
  ∧ ∃ st, exec 0 [Put 1 10; Get 1; Put 2 20] = Ok st
          ∧ dict st = ∅
          ∧ items st = []
          ∧ get 2 st = Ok (-1, st, get_miss_trace).
Proof.
  assert (0 ≤ 0) as H by lia.
  split; [exact H|].
  exact (nonpositive_capacity_holds_nothing 0 [Put 1 10; Get 1; Put 2 20] 2 H).
Defined.

(** X3. On a reachable cache, [put] of a key absent from the Index, when
    the cache holds fewer entries than its capacity, adds the entry at
    the head of the Recency List and evicts nothing: every other entry
    keeps its place and its value, and the Index grows by the one key. *)
Theorem put_absent_with_room st k v :
  reachable st →
  dict st !! k = None →
  Z.of_nat (size (dict st)) + 1 ≤ capacity st →
  ∃ st',
    put k v st = Ok (tt, st', put_trace false false)
    ∧ items st' = (k, v) :: items st
    ∧ stored st' k = Some v
    ∧ (∀ k', k' ≠ k → stored st' k' = stored st k')
    ∧ size (dict st') = S (size (dict st))
    ∧ dom (dict st') = {[k]} ∪ dom (dict st).
Proof.
  intros Hr Hk Hroom. destruct (reachable_Inv _ Hr) as (rs & HI & _).
  destruct (put_spec _ _ _ _ k v HI) as (st' & rs' & Hput & HI' & _ & Hit).
  rewrite bool_decide_eq_false_2 in Hput by (rewrite Hk; by intros [??]).
  assert (k ∉ (items st).*1) as Hnk.
  { rewrite <- (Inv_dict_items _ _ _ _ HI), Hk. by intros [??]. }
  assert (touch k v (items st) = (k, v) :: items st) as Ht.
  { unfold touch. by rewrite filter_key_absent. }
  rewrite Ht in Hput, Hit. rewrite (Inv_size _ _ _ _ HI) in Hroom.
  assert (¬ capacity st < Z.of_nat (length ((k, v) :: items st))) as Hfit.
  { simpl. lia. }
  rewrite bool_decide_eq_false_2 in Hput by done.
  unfold trim in Hit. rewrite bool_decide_eq_false_2 in Hit by done.
  exists st'. split_and!; [done|done| | | |].
  - apply (Inv_stored _ _ _ _ HI'). rewrite Hit. by left.
  - intros k' Hne. apply option_eq. intros v'.
    rewrite (Inv_stored _ _ _ _ HI'), (Inv_stored _ _ _ _ HI), Hit,
      elem_of_cons.
    split; [intros [[= ??]|?]; done|by right].
  - by rewrite (Inv_size _ _ _ _ HI'), (Inv_size _ _ _ _ HI), Hit.
  - rewrite (Inv_dom _ _ _ _ HI'), (Inv_dom _ _ _ _ HI), Hit. done.
Qed.

Lemma put_absent_with_room_witness :
  reachable (state_after 2 [Put 1 10])
  ∧ dict (state_after 2 [Put 1 10]) !! 2 = None
  ∧ Z.of_nat (size (dict (state_after 2 [Put 1 10]))) + 1
    ≤ capacity (state_after 2 [Put 1 10])
  ∧ ∃ st',
      put 2 20 (state_after 2 [Put 1 10]) = Ok (tt, st', put_trace false false)
      ∧ items st' = (2, 20) :: items (state_after 2 [Put 1 10])
      ∧ stored st' 2 = Some 20
      ∧ (∀ k', k' ≠ 2 → stored st' k' = stored (state_after 2 [Put 1 10]) k')
      ∧ size (dict st') = S (size (dict (state_after 2 [Put 1 10])))
      ∧ dom (dict st') = {[2]} ∪ dom (dict (state_after 2 [Put 1 10])).
Proof.
  assert (reachable (state_after 2 [Put 1 10])) as Hr
    by (apply (reachable_of_exec 2 [Put 1 10]); vm_compute; reflexivity).
  assert (dict (state_after 2 [Put 1 10]) !! 2 = None) as Hk
    by (vm_compute; reflexivity).
  assert (Z.of_nat (size (dict (state_after 2 [Put 1 10]))) + 1
          ≤ capacity (state_after 2 [Put 1 10])) as Hroom
    by (vm_compute; discriminate).
  split_and!; [exact Hr|exact Hk|exact Hroom|].
  exact (put_absent_with_room _ 2 20 Hr Hk Hroom).
Defined.

(** X4. On a reachable cache whose capacity is at least 2, a key read by
    [get] is not the one evicted by the [put] of another key that
    follows: it is still in the Index, with the value [get] returned. *)
Theorem get_protects_from_next_eviction st k k' v' :
  reachable st →
  2 ≤ capacity st →
  is_Some (dict st !! k) →
  k' ≠ k →
  ∃ x st1 st2 t2,
    get k st = Ok (x, st1, get_hit_trace)
    ∧ put k' v' st1 = Ok (tt, st2, t2)
    ∧ stored st2 k = Some x.
Proof.
  intros Hr Hcap [r Hk] Hne. destruct (reachable_Inv _ Hr) as (rs & HI & _).
  destruct (Inv_split _ _ _ _ _ _ HI Hk) as (l1 & l2 & x & _ & Hkv & _).
  assert (stored st k = Some x) as Hst.
  { unfold stored. rewrite Hk. simpl. by rewrite Hkv. }
  destruct (get_spec _ _ _ _ k HI) as (st1 & rs1 & Hget & HI1 & Hs1 & Hit1).
  rewrite Hst in Hget, Hit1. simpl in Hget.
  destruct (put_spec _ _ _ _ k' v' HI1) as (st2 & rs2 & Hput & HI2 & _ & Hit2).
  rewrite (same_capacity _ _ Hs1), Hit1 in Hit2. unfold touch in Hit2.
  rewrite filter_cons_True in Hit2 by (simpl; congruence).
  destruct (trim_cons_cons (capacity st) (k', v') (k, x)
              (filter (λ e, e.1 ≠ k')
                 (filter (λ e, e.1 ≠ k) (items st))) Hcap) as [l' Hl'].
  rewrite Hl' in Hit2.
  eexists x, st1, st2, _. split_and!; [done|exact Hput|].
  apply (Inv_stored _ _ _ _ HI2). rewrite Hit2. right. by left.
Qed.

Lemma get_protects_from_next_eviction_witness :
  reachable (state_after 2 [Put 1 10; Put 2 20])
  ∧ 2 ≤ capacity (state_after 2 [Put 1 10; Put 2 20])
  ∧ is_Some (dict (state_after 2 [Put 1 10; Put 2 20]) !! 1)
  ∧ 3 ≠ 1
  ∧ ∃ x st1 st2 t2,
      get 1 (state_after 2 [Put 1 10; Put 2 20]) = Ok (x, st1, get_hit_trace)
      ∧ put 3 30 st1 = Ok (tt, st2, t2)
      ∧ stored st2 1 = Some x.
Proof.
  assert (reachable (state_after 2 [Put 1 10; Put 2 20])) as Hr
    by (apply (reachable_of_exec 2 [Put 1 10; Put 2 20]);
        vm_compute; reflexivity).
  assert (2 ≤ capacity (state_after 2 [Put 1 10; Put 2 20])) as Hcap
    by (vm_compute; discriminate).
  assert (is_Some (dict (state_after 2 [Put 1 10; Put 2 20]) !! 1)) as Hk
    by (exists 2%nat; vm_compute; reflexivity).
  assert (3 ≠ 1) as Hne by lia.
  split_and!; [exact Hr|exact Hcap|exact Hk|exact Hne|].
  exact (get_protects_from_next_eviction _ 1 3 30 Hr Hcap Hk Hne).
Defined.

(** ** Allocation and the contents of nodes *)

Lemma bind_inv {A B} (m : M A) (f : A → M B) st b st2 t :
  (m ≫= f) st = Ok (b, st2, t) →
  ∃ a st1 t1 t2,
    m st = Ok (a, st1, t1) ∧ f a st1 = Ok (b, st2, t2) ∧ t = t1 ++ t2.
Proof.
  unfold mbind, M_bind. destruct (m st) as [[[a st1] t1]|]; [|done].
  destruct (f a st1) as [[[b' st2'] t2]|] eqn:Hf; [|done].
  intros [= -> -> <-]. eauto 10.
Qed.

Lemma grows_refl st : grows 0 st st.
Proof. split; [lia|done]. Qed.

Lemma grows_trans n1 n2 st st1 st2 :
  grows n1 st st1 → grows n2 st1 st2 → grows (n1 + n2) st st2.
Proof.
  intros [Hl1 Hk1] [Hl2 Hk2]. split; [lia|].
  intros x Hx. rewrite Hk2, Hk1; [done..|].
  apply lookup_lt_is_Some. apply lookup_lt_is_Some in Hx. lia.
Qed.

Lemma allocates_elim {A} n (m : M A) st a st' t :
  allocates n m → m st = Ok (a, st', t) → grows n st st'.
Proof. intros H. apply H. Qed.

Lemma allocates_bind {A B} n1 n2 (m : M A) (f : A → M B) :
  allocates n1 m → (∀ a, allocates n2 (f a)) →
  allocates (n1 + n2) (m ≫= f).
Proof.
  intros Hm Hf st b st2 t (a & st1 & t1 & t2 & H1 & H2 & _)%bind_inv.
  eapply grows_trans; [by eapply Hm|by eapply Hf].
Qed.

Lemma allocates_ret {A} (a : A) : allocates 0 (mret a : M A).
Proof. intros st a' st' t [= _ <- _]. apply grows_refl. Qed.

Lemma allocates_getattr {A} (f : ListNode → A) o : allocates 0 (getattr f o).
Proof.
  intros st a st' t. unfold getattr. destruct o as [r|]; [|done].
  destruct (store st !! r); [|done]. intros [= _ <- _]. apply grows_refl.
Qed.

Lemma allocates_setattr_next o v : allocates 0 (setattr_next o v).
Proof.
  intros st a st' t. unfold setattr_next. destruct o as [r|]; [|done].
  destruct (store st !! r); [|done]. intros [= _ <- _]. split; simpl.
  - rewrite length_set_next. lia.
  - intros x _. apply kvof_set_next.
Qed.

Lemma allocates_setattr_prev o v : allocates 0 (setattr_prev o v).
Proof.
  intros st a st' t. unfold setattr_prev. destruct o as [r|]; [|done].
  destruct (store st !! r); [|done]. intros [= _ <- _]. split; simpl.
  - rewrite length_set_prev. lia.
  - intros x _. apply kvof_set_prev.
Qed.

Lemma allocates_new_ListNode k v : allocates 1 (new_ListNode k v).
Proof.
  intros st a st' t [= _ <- _]. split; simpl.
  - by rewrite length_app.
  - intros x Hx. by apply kvof_alloc.
Qed.

Lemma allocates_self_head : allocates 0 self_head.
Proof. intros st a st' t [= _ <- _]. apply grows_refl. Qed.

Lemma allocates_self_tail : allocates 0 self_tail.
Proof. intros st a st' t [= _ <- _]. apply grows_refl. Qed.

Lemma allocates_self_capacity : allocates 0 self_capacity.
Proof. intros st a st' t [= _ <- _]. apply grows_refl. Qed.

Lemma allocates_dict_contains k : allocates 0 (dict_contains k).
Proof. intros st a st' t [= _ <- _]. apply grows_refl. Qed.

Lemma allocates_dict_len : allocates 0 dict_len.
Proof. intros st a st' t [= _ <- _]. apply grows_refl. Qed.

Lemma allocates_dict_getitem k : allocates 0 (dict_getitem k).
Proof.
  intros st a st' t. unfold dict_getitem. destruct (dict st !! k); [|done].
  intros [= _ <- _]. apply grows_refl.
Qed.

Lemma allocates_dict_setitem k r : allocates 0 (dict_setitem k r).
Proof. intros st a st' t [= _ <- _]. split; simpl; [lia|done]. Qed.

Lemma allocates_dict_delitem k : allocates 0 (dict_delitem k).
Proof.
  intros st a st' t. unfold dict_delitem. destruct (dict st !! k); [|done].
  intros [= _ <- _]. split; simpl; [lia|done].
Qed.

Create HintDb allocation discriminated.
#[local] Hint Resolve allocates_ret allocates_getattr allocates_setattr_next
  allocates_setattr_prev allocates_self_head allocates_self_tail
  allocates_self_capacity allocates_dict_contains allocates_dict_len
  allocates_dict_getitem allocates_dict_setitem allocates_dict_delitem
  : allocation.

(** A sequence of steps none of which allocates. *)
Ltac no_allocation :=
  repeat first
    [ solve [auto with allocation]
    | apply (allocates_bind 0 0); [|intros ?]
    | match goal with
      | |- allocates _ (if ?b then _ else _) => destruct b
      end ].

Lemma allocates__remove node : allocates 0 (_remove node).
Proof. unfold _remove. no_allocation. Qed.

Lemma allocates__add node : allocates 0 (_add node).
Proof. unfold _add. no_allocation. Qed.

#[local] Hint Resolve allocates__remove allocates__add : allocation.

Lemma allocates_get k : allocates 0 (get k).
Proof. unfold get. no_allocation. Qed.

Lemma allocates_put k v : allocates 1 (put k v).
Proof.
  unfold put.
  apply (allocates_bind 0 1); [auto with allocation|intros b].
  apply (allocates_bind 0 1); [no_allocation|intros _].
  apply (allocates_bind 1 0); [apply allocates_new_ListNode|intros node].
  no_allocation.
Qed.

(** The node made by [put] holds the key and the value. *)
Lemma put_new_node st k v st' t :
  put k v st = Ok (tt, st', t) →
  kvof (store st') (length (store st)) = Some (k, v).
Proof.
  unfold put.
  intros (b & sa & ? & ? & [= _ <- _] & H1 & _)%bind_inv.
  apply bind_inv in H1 as (? & st1 & ? & ? & H1 & H2 & _).
  apply bind_inv in H2 as (node & st2 & ? & ? & [= <- <- _] & H3 & _).
  eapply allocates_elim in H1 as [Hlen1 _]; [|no_allocation].
  eapply allocates_elim in H3 as [_ Hkv3]; [|no_allocation].
  rewrite Nat.add_0_r in Hlen1. rewrite <- Hlen1, Hkv3; simpl.
  - apply kvof_alloc_new.
  - rewrite lookup_alloc_new. eauto.
Qed.

(** X5. On a reachable cache, [get] allocates no node and [put] exactly
    one, also for a key already present: the new node holds the key and
    the value, and no call changes the key or the value held by a node
    that already exists. *)
Theorem nodes_are_never_overwritten st k v :
  reachable st →
  (∃ x st' t,
     get k st = Ok (x, st', t)
     ∧ length (store st') = length (store st)
     ∧ ∀ r, is_Some (store st !! r) →
            kvof (store st') r = kvof (store st) r)
  ∧ (∃ st' t,
       put k v st = Ok (tt, st', t)
       ∧ length (store st') = S (length (store st))
       ∧ kvof (store st') (length (store st)) = Some (k, v)
       ∧ ∀ r, is_Some (store st !! r) →
              kvof (store st') r = kvof (store st) r).
Proof.
  intros Hr. destruct (reachable_Inv _ Hr) as (rs & HI & _). split.
  - destruct (get_spec _ _ _ _ k HI) as (st' & _ & Hget & _).
    destruct (allocates_get _ _ _ _ _ Hget) as [Hlen Hkv].
    eexists _, st', _. split_and!; [exact Hget| |done]. lia.
  - destruct (put_spec _ _ _ _ k v HI) as (st' & _ & Hput & _).
    destruct (allocates_put _ _ _ _ _ _ Hput) as [Hlen Hkv].
    eexists st', _. split_and!; [exact Hput| | |done]; [lia|].
    by eapply put_new_node.
Qed.

Lemma nodes_are_never_overwritten_witness :
  reachable (state_after 2 [Put 1 10])
  ∧ (∃ x st' t,
       get 1 (state_after 2 [Put 1 10]) = Ok (x, st', t)
       ∧ length (store st') = length (store (state_after 2 [Put 1 10]))
       ∧ ∀ r, is_Some (store (state_after 2 [Put 1 10]) !! r) →
              kvof (store st') r
              = kvof (store (state_after 2 [Put 1 10])) r)
  ∧ (∃ st' t,
       put 1 11 (state_after 2 [Put 1 10]) = Ok (tt, st', t)
       ∧ length (store st')
         = S (length (store (state_after 2 [Put 1 10])))
       ∧ kvof (store st') (length (store (state_after 2 [Put 1 10])))
         = Some (1, 11)
       ∧ ∀ r, is_Some (store (state_after 2 [Put 1 10]) !! r) →
              kvof (store st') r
              = kvof (store (state_after 2 [Put 1 10])) r).
Proof.
  assert (reachable (state_after 2 [Put 1 10])) as Hr
    by (apply (reachable_of_exec 2 [Put 1 10]); vm_compute; reflexivity).
  split; [exact Hr|]. exact (nodes_are_never_overwritten _ 1 11 Hr).
Defined.

(** X6. In every reachable state the two sentinels are the first two
    nodes allocated; they still hold key [-1] and value [-1]; they are
    never among the nodes walked between them, and the Index never maps
    a key to either of them. *)
Theorem sentinels_stay_out st :
  reachable st →
  head st = Some 0%nat
  ∧ tail st = Some 1%nat
  ∧ kvof (store st) 0%nat = Some (-1, -1)
  ∧ kvof (store st) 1%nat = Some (-1, -1)
  ∧ (0%nat ∉ nodes st)
  ∧ (1%nat ∉ nodes st)
  ∧ (∀ k r, dict st !! k = Some r → r ≠ 0%nat ∧ r ≠ 1%nat).
Proof.
  intros Hr.
  assert (kvof (store st) 0%nat = Some (-1, -1)
          ∧ kvof (store st) 1%nat = Some (-1, -1)) as [H0 H1].
  { induction Hr as [cap st t Hnew|st k v st' t _ [IH0 IH1] Hget
                    |st k v st' t _ [IH0 IH1] Hput].
    - vm_compute in Hnew. injection Hnew as <- _. by split.
    - destruct (allocates_get _ _ _ _ _ Hget) as [_ Hkv].
      rewrite !Hkv; [done|apply kvof_is_Some; by rewrite ?IH0, ?IH1..].
    - destruct (allocates_put _ _ _ _ _ _ Hput) as [_ Hkv].
      rewrite !Hkv; [done|apply kvof_is_Some; by rewrite ?IH0, ?IH1..]. }
  destruct (reachable_Inv _ Hr) as (rs & HI & _).
  pose proof (chain_nodup _ _ _ _ (inv_chain _ _ _ _ HI)) as Hnd.
  apply NoDup_cons in Hnd as [Hhd Hnd].
  apply NoDup_app in Hnd as (_ & Hd & _).
  assert (0%nat ∉ rs) as Hrs0.
  { intros ?. apply Hhd. apply elem_of_app. by left. }
  assert (1%nat ∉ rs) as Hrs1.
  { intros Hin. apply (Hd _ Hin). by left. }
  rewrite (Inv_nodes _ _ _ _ HI).
  split_and!; [apply HI|apply HI|done..|].
  intros k r [Hin _]%(inv_index _ _ _ _ HI). split; by intros ->.
Qed.

Lemma sentinels_stay_out_witness :
  reachable (state_after 2 [Put (-1) 7; Put 2 20; Put 3 30])
  ∧ head (state_after 2 [Put (-1) 7; Put 2 20; Put 3 30]) = Some 0%nat
  ∧ tail (state_after 2 [Put (-1) 7; Put 2 20; Put 3 30]) = Some 1%nat
  ∧ kvof (store (state_after 2 [Put (-1) 7; Put 2 20; Put 3 30])) 0%nat
    = Some (-1, -1)
  ∧ kvof (store (state_after 2 [Put (-1) 7; Put 2 20; Put 3 30])) 1%nat
    = Some (-1, -1)
  ∧ (0%nat ∉ nodes (state_after 2 [Put (-1) 7; Put 2 20; Put 3 30]))
  ∧ (1%nat ∉ nodes (state_after 2 [Put (-1) 7; Put 2 20; Put 3 30]))
  ∧ (∀ k r,
       dict (state_after 2 [Put (-1) 7; Put 2 20; Put 3 30]) !! k = Some r →
       r ≠ 0%nat ∧ r ≠ 1%nat).
Proof.
  assert (reachable (state_after 2 [Put (-1) 7; Put 2 20; Put 3 30])) as Hr
    by (apply (reachable_of_exec 2 [Put (-1) 7; Put 2 20; Put 3 30]);
        vm_compute; reflexivity).
  split; [exact Hr|]. exact (sentinels_stay_out _ Hr).
Defined.

(** ** The list walked backwards *)

Lemma walk_bwd h a rs z fuel :
  bwd h a rs z → a ∉ rs → (length rs < fuel)%nat →
  match prv h z with Some p => walk_back fuel h p a | None => [] end
  = reverse rs.
Proof.
  revert z fuel. induction rs as [|r rs IH] using rev_ind; intros z fuel.
  - simpl. intros -> _ Hf. destruct fuel; [lia|]. simpl.
    by rewrite decide_True.
  - intros [Hb Hz]%bwd_app [Hnin Hne]%not_elem_of_app Hf. simpl in Hz.
    rewrite length_app in Hf. simpl in Hf.
    rewrite Hz. destruct fuel as [|fuel]; [lia|]. simpl.
    rewrite decide_False by (intros ->; apply Hne; by left).
    rewrite reverse_snoc. f_equal. apply IH; [done..|lia].
Qed.

(** X7. In every reachable state, following [prev] from the dummy tail
    back to the dummy head visits the nodes that following [next] from
    the dummy head visits, in the opposite order. *)
Theorem backward_walk_is_reverse st :
  reachable st →
  nodes_back st = reverse (nodes st).
Proof.
  intros Hr. destruct (reachable_Inv _ Hr) as (rs & HI & _).
  rewrite (Inv_nodes _ _ _ _ HI).
  destruct (inv_chain _ _ _ _ HI) as [Hh Ht Hnd Hf Hb].
  assert (length (0%nat :: rs ++ [1%nat]) ≤ length (store st))%nat as Hlen.
  { apply NoDup_bounded_length; [done|]. intros x Hx.
    apply lookup_lt_is_Some. eapply Chain_valid; [apply HI|done]. }
  simpl in Hlen. rewrite length_app in Hlen. simpl in Hlen.
  unfold nodes_back. rewrite Hh, Ht. apply walk_bwd; [done| |lia].
  apply NoDup_cons in Hnd as [Hhd _]. intros Hin. apply Hhd.
  apply elem_of_app. by left.
Qed.

Lemma backward_walk_is_reverse_witness :
  reachable (state_after 3 scenario)
  ∧ nodes_back (state_after 3 scenario)
    = reverse (nodes (state_after 3 scenario)).
Proof.
  assert (reachable (state_after 3 scenario)) as Hr
    by (apply (reachable_of_exec 3 scenario); vm_compute; reflexivity).
  split; [exact Hr|]. exact (backward_walk_is_reverse _ Hr).
Defined.

(** ** The cache and the list of entries *)

Lemma assoc_Some (l : list (Z * Z)) k v :
  NoDup l.*1 → assoc k l = Some v ↔ (k, v) ∈ l.
Proof.
  induction l as [|[k' v'] l IH]; simpl.
  - intros _. split; [done|]. by intros ?%elem_of_nil.
  - intros [Hk' Hnd]%NoDup_cons. rewrite elem_of_cons.
    case_decide as Hkk.
    + subst k'. split; [intros [= ->]; by left|].
      intros [[= ->]|Hin]; [done|]. exfalso. apply Hk'.
      apply list_elem_of_fmap. by exists (k, v).
    + rewrite IH by done. split; [by right|].
      intros [[= ??]|?]; [by subst|done].
Qed.

Lemma Inv_assoc st hd tl rs k :
  Inv st hd tl rs → assoc k (items st) = stored st k.
Proof.
  intros HI. apply option_eq. intros v.
  rewrite (Inv_stored _ _ _ _ HI).
  apply assoc_Some. by eapply Inv_NoDup_keys.
Qed.

Lemma run_refines st ops :
  reachable st →
  ∃ st', run ops st = Ok ((model_run (capacity st) ops (items st)).1, st')
         ∧ items st' = (model_run (capacity st) ops (items st)).2.
Proof.
  revert st. induction ops as [|[k|k v] ops IH]; intros st Hr.
  - exists st. by split.
  - destruct (reachable_Inv _ Hr) as (rs & HI & _).
    destruct (get_spec _ _ _ _ k HI) as (st1 & _ & Hget & _ & Hs & Hit).
    assert (reachable st1) as Hr1 by by eapply reach_get.
    destruct (IH _ Hr1) as (st' & Hrun & Hit').
    rewrite (same_capacity _ _ Hs), Hit in Hrun, Hit'.
    exists st'. simpl. rewrite Hget, Hrun, (Inv_assoc _ _ _ _ _ HI).
    by destruct (stored st k).
  - destruct (reachable_Inv _ Hr) as (rs & HI & _).
    destruct (put_spec _ _ _ _ k v HI) as (st1 & _ & Hput & _ & Hc & Hit).
    assert (reachable st1) as Hr1 by by eapply reach_put.
    destruct (IH _ Hr1) as (st' & Hrun & Hit').
    rewrite Hc, Hit in Hrun, Hit'.
    exists st'. simpl. by rewrite Hput.
Qed.

(** X8. A session on a new cache of any capacity never raises, and is
    indistinguishable from the same session on a plain list of entries
    kept most recently used first ([get] moves the entry found to the
    front, [put] removes the old entry of the key, puts the new one in
    front and drops the last entry when the list is longer than the
    capacity): the [get] calls return the same values, [-1] for a miss,
    and the Recency List ends up holding the same entries in the same
    order. *)
Theorem session_refines_list cap ops :
  ∃ st0 st',
    new cap = Ok (st0, new_trace)
    ∧ run ops st0 = Ok ((model_run cap ops []).1, st')
    ∧ items st' = (model_run cap ops []).2.
Proof.
  destruct (new_spec cap) as (st0 & Hnew & HI & Hcap).
  assert (reachable st0) as Hr by by eapply reach_new.
  destruct (run_refines st0 ops Hr) as (st' & Hrun & Hit).
  rewrite Hcap, (Inv_items _ _ _ _ HI) in Hrun, Hit.
  by exists st0, st'.
Qed.

(** ** Linking and unlinking a node *)

Lemma Chain_nodes st hd tl rs : Chain st hd tl rs → nodes st = rs.
Proof.
  intros Hc. pose proof Hc as [Hh Ht Hnd Hf Hb].
  assert (length (hd :: rs ++ [tl]) ≤ length (store st))%nat as Hlen.
  { apply NoDup_bounded_length; [done|]. intros x Hx.
    apply lookup_lt_is_Some. by eapply Chain_valid. }
  simpl in Hlen. rewrite length_app in Hlen. simpl in Hlen.
  unfold nodes. rewrite Hh, Ht. apply walk_fwd; [done| |lia].
  apply NoDup_cons in Hnd as [_ Hnd].
  apply NoDup_app in Hnd as (_ & Hd & _).
  intros Hin. apply (Hd tl Hin). by left.
Qed.

(** X9. On a reachable cache, [_add] of an existing node that is neither
    a sentinel nor linked puts it first in the Recency List, and
    [_remove] of that node then gives back the list as it was, with the
    Index and the entries unchanged. *)
Theorem link_then_unlink st r :
  reachable st →
  is_Some (store st !! r) →
  r ∉ 0%nat :: nodes st ++ [1%nat] →
  ∃ st1 st2,
    _add (Some r) st = Ok (tt, st1, add_trace)
    ∧ nodes st1 = r :: nodes st
    ∧ _remove (Some r) st1 = Ok (tt, st2, remove_trace)
    ∧ nodes st2 = nodes st
    ∧ items st2 = items st
    ∧ dict st2 = dict st.
Proof.
  intros Hr Hv Hfresh. destruct (reachable_Inv _ Hr) as (rs & HI & _).
  rewrite (Inv_nodes _ _ _ _ HI) in Hfresh |- *.
  destruct (_add_spec _ _ _ _ _ (inv_chain _ _ _ _ HI) Hfresh Hv)
    as (st1 & Hadd & Hc1 & Hs1).
  destruct (_remove_spec st1 0%nat 1%nat [] r rs Hc1)
    as (st2 & Hrem & Hc2 & Hs2).
  simpl in Hc2. pose proof (same_data_trans _ _ _ Hs1 Hs2) as Hs.
  exists st1, st2. split_and!; [done| |done| | |apply Hs].
  - by apply (Chain_nodes _ _ _ _ Hc1).
  - by apply (Chain_nodes _ _ _ _ Hc2).
  - unfold items. rewrite (Chain_nodes _ _ _ _ Hc2), (Inv_nodes _ _ _ _ HI).
    apply omap_ext_elem_of. intros x _. apply Hs.
Qed.

Lemma link_then_unlink_witness :
  reachable (state_after 1 [Put 1 10; Put 2 20])
  ∧ is_Some (store (state_after 1 [Put 1 10; Put 2 20]) !! 2%nat)
  ∧ (2%nat ∉ 0%nat :: nodes (state_after 1 [Put 1 10; Put 2 20]) ++ [1%nat])
  ∧ ∃ st1 st2,
      _add (Some 2%nat) (state_after 1 [Put 1 10; Put 2 20])
      = Ok (tt, st1, add_trace)
      ∧ nodes st1 = 2%nat :: nodes (state_after 1 [Put 1 10; Put 2 20])
      ∧ _remove (Some 2%nat) st1 = Ok (tt, st2, remove_trace)
      ∧ nodes st2 = nodes (state_after 1 [Put 1 10; Put 2 20])
      ∧ items st2 = items (state_after 1 [Put 1 10; Put 2 20])
      ∧ dict st2 = dict (state_after 1 [Put 1 10; Put 2 20]).
Proof.
  assert (reachable (state_after 1 [Put 1 10; Put 2 20])) as Hr
    by (apply (reachable_of_exec 1 [Put 1 10; Put 2 20]);
        vm_compute; reflexivity).
  assert (is_Some (store (state_after 1 [Put 1 10; Put 2 20]) !! 2%nat))
    as Hv by (vm_compute; eauto).
  assert (2%nat ∉ 0%nat :: nodes (state_after 1 [Put 1 10; Put 2 20])
                           ++ [1%nat]) as Hfresh.
  { vm_compute. intros Hin.
    repeat (apply elem_of_cons in Hin as [Hin|Hin]; [discriminate Hin|]).
    by apply elem_of_nil in Hin. }
  split_and!; [exact Hr|exact Hv|exact Hfresh|].
  exact (link_then_unlink _ 2%nat Hr Hv Hfresh).
Defined.

(** * Properties of the nested list iterator *)

Module NestedIteratorFacts.
Import NestedIterator.

Section interface.
Context {NI : Type} `{!NestedInteger NI}.
Implicit Types (stack : list NI).

Lemma last_snoc_inv stack top :
  last stack = Some top → stack = removelast stack ++ [top].
Proof.
  intros [s ->]%last_Some. by rewrite removelast_last.
Qed.

(** When [hasNext] returns [True] an integer is on top of the stack;
    when it returns [False] the stack is empty. *)
Lemma hasNext_result fuel stack b stack1 :
  hasNext fuel stack = Some (b, stack1) →
  if b then ∃ top, last stack1 = Some top ∧ isInteger top = true
  else stack1 = [].
Proof.
  revert stack. induction fuel as [|fuel IH]; intros stack; [done|]. simpl.
  destruct (last stack) as [top|] eqn:Hlast.
  - destruct (isInteger top) eqn:Htop; [|apply IH].
    intros [= <- <-]. eauto.
  - intros [= <- <-]. by apply last_None.
Qed.
End interface.

Lemma flatten_Lst l : flatten (Lst l) = flatten_list l.
Proof.
  simpl. unfold flatten_list.
  induction l as [|x l IH]; simpl; by rewrite ?IH.
Qed.

Lemma weight_Lst l : weight (Lst l) = S (weight_list l).
Proof. reflexivity. Qed.

Lemma flatten_list_app l1 l2 :
  flatten_list (l1 ++ l2) = flatten_list l1 ++ flatten_list l2.
Proof. apply flat_map_app. Qed.

Lemma weight_list_app l1 l2 :
  weight_list (l1 ++ l2) = (weight_list l1 + weight_list l2)%nat.
Proof.
  unfold weight_list. induction l1 as [|x l1 IH]; [done|]. simpl.
  rewrite IH. lia.
Qed.

Lemma weight_list_reverse l : weight_list (reverse l) = weight_list l.
Proof.
  induction l as [|x l IH]; [done|].
  rewrite reverse_cons, weight_list_app, IH. simpl. lia.
Qed.

Lemma pending_snoc stack top :
  pending (stack ++ [top]) = flatten top ++ pending stack.
Proof. unfold pending. by rewrite reverse_snoc. Qed.

Lemma pending_expand stack l :
  pending (stack ++ reverse l) = flatten_list l ++ pending stack.
Proof.
  unfold pending. by rewrite reverse_app, reverse_involutive, flatten_list_app.
Qed.

Lemma hasNext_spec fuel stack :
  (weight_list stack < fuel)%nat →
  ∃ stack1,
    hasNext fuel stack = Some (bool_decide (pending stack ≠ []), stack1)
    ∧ pending stack1 = pending stack
    ∧ (weight_list stack1 ≤ weight_list stack)%nat.
Proof.
  revert stack. induction fuel as [|fuel IH]; intros stack Hw; [lia|]. simpl.
  destruct (last stack) as [top|] eqn:Hlast.
  - apply last_snoc_inv in Hlast. set (s := removelast stack) in *.
    rewrite Hlast. rewrite Hlast, weight_list_app in Hw. simpl in Hw.
    destruct top as [n|l]; simpl.
    + exists (s ++ [Int n]).
      by rewrite bool_decide_eq_true_2 by by rewrite pending_snoc.
    + rewrite weight_Lst in Hw.
      destruct (IH (s ++ reverse l)) as (stack1 & Hh & Hp & Hw1).
      { rewrite weight_list_app, weight_list_reverse. lia. }
      rewrite pending_expand in Hh, Hp.
      rewrite weight_list_app, weight_list_reverse in Hw1.
      exists stack1. rewrite pending_snoc, flatten_Lst, weight_list_app.
      change (weight_list [Lst l]) with (weight (Lst l) + 0)%nat.
      rewrite weight_Lst. split_and!; [done..|lia].
  - apply last_None in Hlast as ->. exists []. by split_and!.
Qed.

Lemma hasNext_pending fuel stack b stack1 :
  hasNext fuel stack = Some (b, stack1) → pending stack1 = pending stack.
Proof.
  revert stack. induction fuel as [|fuel IH]; intros stack; [done|]. simpl.
  destruct (last stack) as [top|] eqn:Hlast; [|by intros [= _ <-]].
  apply last_snoc_inv in Hlast.
  destruct top as [n|l]; simpl; [by intros [= _ <-]|].
  intros ->%IH. rewrite Hlast at 2.
  by rewrite pending_expand, pending_snoc, flatten_Lst.
Qed.


Lemma drain_pending rounds fuel stack :
  (length (pending stack) < rounds)%nat →
  (weight_list stack < fuel)%nat →
  drain rounds fuel stack = Some (pending stack).
Proof.
  revert stack. induction rounds as [|n IH]; intros stack Hn Hw; [lia|].
  simpl. destruct (hasNext_spec fuel stack Hw) as (stack1 & Hh & Hp & Hw1).
  rewrite Hh. pose proof (hasNext_result _ _ _ _ Hh) as Hres.
  case_bool_decide as Hne; [|by destruct (pending stack)].
  destruct Hres as (top & Hlast & Htop). unfold next. rewrite Hlast.
  apply last_snoc_inv in Hlast. set (s := removelast stack1) in *.
  destruct top as [x|l]; [|done]. simpl.
  rewrite Hlast, pending_snoc in Hp. simpl in Hp.
  rewrite Hlast, weight_list_app in Hw1. simpl in Hw1.
  rewrite IH, <- Hp; [done| |lia].
  rewrite <- Hp in Hn. simpl in Hn. lia.
Qed.

(** X10. On a stack of trees, [hasNext] returns after at most as many
    iterations as the stack has nodes; it returns [True] exactly when
    an integer is still to come, and what is still to come is the same
    after the call. *)
Theorem hasNext_decides fuel stack :
  (weight_list stack < fuel)%nat →
  ∃ stack1,
    hasNext fuel stack = Some (bool_decide (pending stack ≠ []), stack1)
    ∧ pending stack1 = pending stack.
Proof.
  intros Hw. destruct (hasNext_spec fuel stack Hw) as (stack1 & Hh & Hp & _).
  eauto.
Qed.

Lemma hasNext_decides_witness :
  (weight_list (__init__ [Lst [Lst []; Int 1]; Int 2]) < 7)%nat
  ∧ ∃ stack1,
      hasNext 7 (__init__ [Lst [Lst []; Int 1]; Int 2])
      = Some (bool_decide
                (pending (__init__ [Lst [Lst []; Int 1]; Int 2]) ≠ []),
              stack1)
      ∧ pending stack1 = pending (__init__ [Lst [Lst []; Int 1]; Int 2]).
Proof.
  assert (weight_list (__init__ [Lst [Lst []; Int 1]; Int 2]) < 7)%nat as Hw
    by (vm_compute; lia).
  split; [exact Hw|]. exact (hasNext_decides 7 _ Hw).
Defined.

(** X11. After [hasNext] has returned [True], [next] does not raise: it
    returns the first of the integers that were to come before the two
    calls, and the others are still to come, in the same order. *)
Theorem next_after_hasNext fuel stack stack1 :
  hasNext fuel stack = Some (true, stack1) →
  ∃ x stack2,
    next stack1 = Returned (x, stack2)
    ∧ pending stack = x :: pending stack2.
Proof.
  intros Hh. pose proof (hasNext_pending _ _ _ _ Hh) as Hp.
  destruct (hasNext_result _ _ _ _ Hh) as (top & Hlast & Htop).
  unfold next. rewrite Hlast. apply last_snoc_inv in Hlast.
  set (s := removelast stack1) in *.
  destruct top as [x|l]; [|by simpl in Htop]. exists x, s.
  split; [done|]. by rewrite <- Hp, Hlast, pending_snoc.
Qed.

Lemma next_after_hasNext_witness :
  hasNext 7 (__init__ [Lst [Lst []; Int 1]; Int 2]) = Some (true, [Int 2; Int 1])
  ∧ ∃ x stack2,
      next [Int 2; Int 1] = Returned (x, stack2)
      ∧ pending (__init__ [Lst [Lst []; Int 1]; Int 2]) = x :: pending stack2.
Proof.
  assert (hasNext 7 (__init__ [Lst [Lst []; Int 1]; Int 2])
          = Some (true, [Int 2; Int 1])) as Hh by (vm_compute; reflexivity).
  split; [exact Hh|]. exact (next_after_hasNext 7 _ _ Hh).
Defined.

(** X12. After [hasNext] has returned [False] the stack is empty, no
    integer was to come, and [next] raises [IndexError]. *)
Theorem next_after_hasNext_False fuel stack stack1 :
  hasNext fuel stack = Some (false, stack1) →
  stack1 = []
  ∧ pending stack = []
  ∧ next stack1 = IndexError.
Proof.
  intros Hh. pose proof (hasNext_pending _ _ _ _ Hh) as Hp.
  pose proof (hasNext_result _ _ _ _ Hh) as ->. by rewrite <- Hp.
Qed.

Lemma next_after_hasNext_False_witness :
  hasNext 7 (__init__ [Lst []; Lst [Lst []]]) = Some (false, [])
  ∧ [] = @nil Nested
  ∧ pending (__init__ [Lst []; Lst [Lst []]]) = []
  ∧ next (@nil Nested) = IndexError.
Proof.
  assert (hasNext 7 (__init__ [Lst []; Lst [Lst []]]) = Some (false, []))
    as Hh by (vm_compute; reflexivity).
  split; [exact Hh|]. exact (next_after_hasNext_False 7 _ _ Hh).
Defined.



(** X14. The loop [while it.hasNext(): out.append(it.next())] on a
    new iterator over a nested list ends, raises nothing, and collects
    the integers of the nested list in order, those of nested lists in
    place, with nothing for an empty list. *)
Theorem drain_flattens nestedList :
  drain (S (length (flatten_list nestedList))) (S (weight_list nestedList))
        (__init__ nestedList)
  = Some (flatten_list nestedList).
Proof.
  assert (pending (__init__ nestedList) = flatten_list nestedList) as Hp.
  { unfold pending, __init__. by rewrite reverse_involutive. }
  rewrite <- Hp at 2. apply drain_pending.
  - rewrite Hp. lia.
  - unfold __init__. rewrite weight_list_reverse. lia.
Qed.

End NestedIteratorFacts.
